(** * MandelbrotZoom: the escape-time pipeline of [mandelbrot_render.py]

    A shallow embedding of the numerical core of the renderer
    ([mandlebrot_f], [recursion], [get_colour],
    [step_pixel_to_complex_coords], [step_get_image_vals] and the
    frame-computing part of [zoom_in_step]) together with the properties
    that its specification states about it.

    Modelling conventions.
    - A Python [int] is a [Z].
    - A Python [float] is a [pyfloat]: a finite value carries a real
      number and is computed with exactly; the three special values
      [inf], [-inf] and [nan] follow the IEEE 754 rules that Python
      exposes.  Rounding and overflow of finite values are not part of
      the model, and [0.01] stands for the real number 1/100.
    - A Python [complex] is a pair of floats.
    - A Python [str] is a string of characters with code points below
      256.
    - A raised exception is the [Err] case of [result]; statements are
      sequenced with the bind of that monad.
    - A NumPy array of shape [(res_x, res_y)] is a list of rows, written
      by index.

    Plotting, printing and the command line do not take part in the
    computation of a frame and are left out; of [render_zoom_in] the
    file path and the frame rate that it passes on are kept. *)

From Stdlib Require Import ZArith Reals Lra Lia List.
From stdpp Require Import base list strings pretty.
Import ListNotations.

Local Open Scope Z_scope.

(** ** Exceptions *)

Inductive exn : Set :=
  | ValueError
  | ZeroDivisionError
  | IndexError.

Inductive result (A : Type) : Type :=
  | Ok (a : A)
  | Err (e : exn).

Arguments Ok {A} a.
Arguments Err {A} e.

Definition bind {A B : Type} (m : result A) (k : A -> result B) : result B :=
  match m with
  | Ok a => k a
  | Err e => Err e
  end.

Declare Scope py_scope.
Delimit Scope py_scope with py.
Notation "'let*' x ':=' m 'in' k" := (bind m (fun x => k))
  (at level 10, x name, m at level 100, k at level 200) : py_scope.
Local Open Scope py_scope.

Definition raises {A : Type} (m : result A) : Prop :=
  exists e, m = Err e.

(** [for i in range(n): s = body(i, s)], started at index [start]. *)
Fixpoint for_range_from {St : Type} (start : Z) (n : nat)
    (body : Z -> St -> result St) (s : St) : result St :=
  match n with
  | O => Ok s
  | S n' =>
      let* s' := body start s in for_range_from (start + 1) n' body s'
  end.

Definition for_range {St : Type} (n : Z) (body : Z -> St -> result St)
    (s : St) : result St :=
  for_range_from 0 (Z.to_nat n) body s.

(** ** Floats *)

Inductive pyfloat : Type :=
  | Fin (r : R)
  | PInf
  | NInf
  | NaN.

Definition Rleb (x y : R) : bool := if Rle_dec x y then true else false.
Definition Rltb (x y : R) : bool := if Rlt_dec x y then true else false.
Definition Reqb (x y : R) : bool := if Req_dec_T x y then true else false.

Definition of_int (n : Z) : pyfloat := Fin (IZR n).

Definition fneg (x : pyfloat) : pyfloat :=
  match x with
  | Fin a => Fin (- a)
  | PInf => NInf
  | NInf => PInf
  | NaN => NaN
  end.

Definition fadd (x y : pyfloat) : pyfloat :=
  match x, y with
  | NaN, _ | _, NaN => NaN
  | Fin a, Fin b => Fin (a + b)
  | PInf, NInf | NInf, PInf => NaN
  | PInf, _ | _, PInf => PInf
  | NInf, _ | _, NInf => NInf
  end.

Definition fsub (x y : pyfloat) : pyfloat := fadd x (fneg y).

(** The infinity whose sign is that of [a] times [positive]; [nan] when
    [a] is zero. *)
Definition signed_inf (positive : bool) (a : R) : pyfloat :=
  if Reqb a 0 then NaN
  else if Bool.eqb positive (Rltb 0 a) then PInf else NInf.

Definition fmul (x y : pyfloat) : pyfloat :=
  match x, y with
  | NaN, _ | _, NaN => NaN
  | Fin a, Fin b => Fin (a * b)
  | PInf, Fin a | Fin a, PInf => signed_inf true a
  | NInf, Fin a | Fin a, NInf => signed_inf false a
  | PInf, PInf | NInf, NInf => PInf
  | PInf, NInf | NInf, PInf => NInf
  end.

(** Python's [/] on floats raises when the divisor is zero. *)
Definition fdiv (x y : pyfloat) : result pyfloat :=
  match y with
  | Fin b =>
      if Reqb b 0 then Err ZeroDivisionError
      else Ok (match x with
               | Fin a => Fin (a / b)
               | PInf => signed_inf true b
               | NInf => signed_inf false b
               | NaN => NaN
               end)
  | PInf | NInf =>
      Ok (match x with
          | Fin _ => Fin 0
          | _ => NaN
          end)
  | NaN => Ok NaN
  end.

(** [x <= y] and [x >= y]; every comparison with [nan] is false. *)
Definition fle (x y : pyfloat) : bool :=
  match x, y with
  | NaN, _ | _, NaN => false
  | Fin a, Fin b => Rleb a b
  | NInf, _ | _, PInf => true
  | _, _ => false
  end.

Definition fge (x y : pyfloat) : bool := fle y x.

Definition np_isnan (x : pyfloat) : bool :=
  match x with
  | NaN => true
  | _ => false
  end.

Definition np_exp (x : pyfloat) : pyfloat :=
  match x with
  | Fin a => Fin (exp a)
  | PInf => PInf
  | NInf => Fin 0
  | NaN => NaN
  end.

(** ** Complex numbers *)

Record complex : Type := Complex { real : pyfloat; imag : pyfloat }.

Definition of_int_c (n : Z) : complex := Complex (of_int n) (Fin 0).

Definition cadd (a b : complex) : complex :=
  Complex (fadd (real a) (real b)) (fadd (imag a) (imag b)).

Definition cmul (a b : complex) : complex :=
  Complex (fsub (fmul (real a) (real b)) (fmul (imag a) (imag b)))
          (fadd (fmul (real a) (imag b)) (fmul (imag a) (real b))).

(** [a / n] for a complex [a] and an int [n]: the divisor becomes
    [n + 0j]; a zero divisor raises, otherwise the quotient is formed
    with the ratio [0 / n] of the divisor's parts. *)
Definition cdiv_int (a : complex) (n : Z) : result complex :=
  let* ratio := fdiv (Fin 0) (of_int n) in
  let denom := fadd (of_int n) (fmul (Fin 0) ratio) in
  let* re := fdiv (fadd (real a) (fmul (imag a) ratio)) denom in
  let* im := fdiv (fsub (imag a) (fmul (real a) ratio)) denom in
  Ok (Complex re im).

Definition is_inf (x : pyfloat) : bool :=
  match x with
  | PInf | NInf => true
  | _ => false
  end.

(** The magnitude of a complex number: infinite as soon as one part is,
    [nan] if a part is [nan] and none is infinite, the Euclidean norm
    otherwise. *)
Definition cabs (c : complex) : pyfloat :=
  if is_inf (real c) || is_inf (imag c) then PInf
  else match real c, imag c with
       | Fin a, Fin b => Fin (sqrt (a * a + b * b))
       | _, _ => NaN
       end.

(** Python's [abs] on a complex.  The only exception it can raise is the
    overflow of a finite norm, which the exact arithmetic of the model
    does not have: it always returns. *)
Definition py_abs (c : complex) : result pyfloat := Ok (cabs c).

(** ** Arrays *)

Abbreviation ndarray := (list (list pyfloat)).

(** [np.zeros([n, m])]: a negative dimension is refused. *)
Definition np_zeros (n m : Z) : result ndarray :=
  if (n <? 0) || (m <? 0) then Err ValueError
  else Ok (replicate (Z.to_nat n) (replicate (Z.to_nat m) (Fin 0))).

(** An index into an axis of length [len]: a negative index counts from
    the end, and an index outside the axis raises. *)
Definition axis_index (i : Z) (len : nat) : result nat :=
  let j := if i <? 0 then i + Z.of_nat len else i in
  if (0 <=? j) && (j <? Z.of_nat len) then Ok (Z.to_nat j)
  else Err IndexError.

(** [a[u, v] = x] *)
Definition setitem (a : ndarray) (u v : Z) (x : pyfloat) : result ndarray :=
  let* i := axis_index u (length a) in
  match a !! i with
  | None => Err IndexError
  | Some row =>
      let* j := axis_index v (length row) in
      Ok (<[i := <[j := x]> row]> a)
  end.

(** ** The renderer *)

Definition iteration_rule : Type := complex -> complex -> result complex.

(** [mandlebrot_f(c, z)]: the generator [z*z + c]. *)
Definition mandlebrot_f : iteration_rule :=
  fun c z => Ok (cadd (cmul z z) c).

(** [recursion(c, N, recursion_func)] *)
Definition recursion (c : complex) (N : Z) (recursion_func : iteration_rule)
    : result complex :=
  if N <=? 0 then Err ValueError
  else
    let z := Complex (Fin 0) (Fin 0) in
    for_range N (fun iter_num z => recursion_func c z) z.

(** [get_colour(c, N, recursion_func)].  The ints [0] and [1] that the
    source returns on three of its paths are given as floats, the type
    the function is annotated with and the array stores. *)
Definition get_colour (c : complex) (N : Z) (recursion_func : iteration_rule)
    : result pyfloat :=
  let* abs_c := py_abs c in
  if fge abs_c (of_int 2) then Ok (of_int 0)
  else
    let* final_z := recursion c N recursion_func in
    match py_abs final_z with
    | Err _ => Ok (of_int 0)
    | Ok abs_z =>
        if np_isnan abs_z then Ok (of_int 0)
        else
          let cut_off := of_int 2 in
          if fle abs_z cut_off then Ok (of_int 1)
          else
            let scale := Fin (1 / 100) in
            Ok (np_exp (fmul (fneg scale) (fsub abs_z cut_off)))
    end.

(** The width [w] of a pixel in the complex plane, the first statement of
    [step_pixel_to_complex_coords]:
    [w = 2 * (2/(min(res_x,res_y))) * 2/(2*(step+1))]. *)
Definition pixel_width (res_x res_y step : Z) : result pyfloat :=
  let* q := fdiv (of_int 2) (of_int (Z.min res_x res_y)) in
  fdiv (fmul (fmul (of_int 2) q) (of_int 2)) (of_int (2 * (step + 1))).

(** [step_pixel_to_complex_coords(u, v, res_x, res_y, focus, step)] *)
Definition step_pixel_to_complex_coords (u v res_x res_y : Z)
    (focus : complex) (step : Z) : result complex :=
  let* w := pixel_width res_x res_y step in
  let* half_res_x := fdiv (of_int res_x) (of_int 2) in
  let* half_w := fdiv w (of_int 2) in
  let top_left_x :=
    fadd (fadd (real focus) (fmul (fneg w) half_res_x)) half_w in
  let* half_res_y := fdiv (of_int res_y) (of_int 2) in
  let* half_w' := fdiv w (of_int 2) in
  let top_left_y := fsub (fadd (imag focus) (fmul w half_res_y)) half_w' in
  let x := fadd top_left_x (fmul (of_int u) w) in
  let y := fsub top_left_y (fmul (of_int v) w) in
  Ok (Complex x y).

(** [step_get_image_vals(step, res_x, res_y, focus, N, recursion_func)] *)
Definition step_get_image_vals (step res_x res_y : Z) (focus : complex)
    (N : Z) (recursion_func : iteration_rule) : result ndarray :=
  let* image_matrix := np_zeros res_x res_y in
  for_range res_x (fun u image_matrix =>
    for_range res_y (fun v image_matrix =>
      let* c := step_pixel_to_complex_coords u v res_x res_y focus step in
      let* colour := get_colour c N recursion_func in
      setitem image_matrix u v colour) image_matrix) image_matrix.

(** [zoom_in_step(step, ax, focus, res_x, res_y, num_frames,
    recentering_steps, N)], up to the matrix it computes and then draws
    on the axis; [num_frames] only appears in the progress line it
    prints. *)
Definition zoom_in_step (step : Z) (focus : complex)
    (res_x res_y num_frames recentering_steps N : Z) : result ndarray :=
  if (res_x mod 2 =? 1) || (res_y mod 2 =? 1) || (res_x <=? 2) || (res_y <=? 2)
  then Err ValueError
  else if step <? 0 then Err ValueError
  else if step <=? recentering_steps then
    let* current_focus :=
      cdiv_int (cmul focus (of_int_c step)) recentering_steps in
    step_get_image_vals step res_x res_y current_focus N mandlebrot_f
  else
    step_get_image_vals step res_x res_y focus N mandlebrot_f.

(** ** Vocabulary of the specification *)

(** A resolution is valid when both dimensions are even and above 2. *)
Definition valid_resolution (res_x res_y : Z) : Prop :=
  res_x mod 2 = 0 /\ res_y mod 2 = 0 /\ 2 < res_x /\ 2 < res_y.

(** An intensity: a finite value of the closed interval [0, 1]. *)
Definition intensity (x : pyfloat) : Prop :=
  exists r : R, x = Fin r /\ (0 <= r <= 1)%R.

(** A rule that never raises. *)
Definition total_rule (rule : iteration_rule) : Prop :=
  forall c z, exists z', rule c z = Ok z'.

(** The value reached from [z] by [n] applications of the rule, as the
    specification words the iteration: [z <- rule(z, c)], [n] times. *)
Fixpoint iterate_rule (rule : iteration_rule) (c : complex) (n : nat)
    (z : complex) : result complex :=
  match n with
  | O => Ok z
  | S n' => let* z' := iterate_rule rule c n' z in rule c z'
  end.

Definition czero : complex := Complex (Fin 0) (Fin 0).

(** The difference of two points, for the distance between them. *)
Definition csub (a b : complex) : complex :=
  Complex (fsub (real a) (real b)) (fsub (imag a) (imag b)).

(** The real number that [pixel_width] computes when it returns. *)
Definition width_value (res_x res_y step : Z) : R :=
  (2 * (2 / IZR (Z.min res_x res_y)) * 2 / IZR (2 * (step + 1)))%R.

(** A matrix of [nx] rows of [ny] intensities. *)
Definition intensity_grid (nx ny : Z) (a : ndarray) : Prop :=
  Z.of_nat (length a) = nx /\
  Forall (fun row => Z.of_nat (length row) = ny /\ Forall intensity row) a.

(** The distance [d] from pixel [(u, v)] to its right and lower
    neighbours, measured between their complex coordinates. *)
Definition pixel_spacing (res_x res_y : Z) (focus : complex) (step u v : Z)
    (d : R) : Prop :=
  exists p q r,
    step_pixel_to_complex_coords u v res_x res_y focus step = Ok p /\
    step_pixel_to_complex_coords (u + 1) v res_x res_y focus step = Ok q /\
    step_pixel_to_complex_coords u (v + 1) res_x res_y focus step = Ok r /\
    cabs (csub q p) = Fin d /\
    cabs (csub r p) = Fin d.

(** Evaluation of the first array write of the goal on a literal array. *)
Ltac run_setitem :=
  match goal with
  | |- context [setitem ?a ?u ?v ?x] =>
      let r := eval cbv [setitem axis_index bind length Z.ltb Z.leb Z.compare
                         Z.of_nat Pos.of_succ_nat Pos.succ Pos.compare
                         Pos.compare_cont Z.add Z.to_nat Pos.to_nat Pos.iter_op
                         Nat.add andb lookup list_lookup insert list_insert]
               in (setitem a u v x) in
      change (setitem a u v x) with r
  end.

(** ** Vocabulary of the further properties *)

(** The cell [a[u, v]] of a matrix, for indices counted from 0. *)
Definition cell (a : ndarray) (u v : Z) : option pyfloat :=
  match a !! Z.to_nat u with
  | Some row => row !! Z.to_nat v
  | None => None
  end.

(** A matrix of [nx] rows of [ny] cells. *)
Definition shape (nx ny : Z) (a : ndarray) : Prop :=
  Z.of_nat (length a) = nx /\
  Forall (fun row => Z.of_nat (length row) = ny) a.

(** The real and imaginary parts of the orbit of 0 under [z*z + c] for
    [c = x + y j], as [mandlebrot_f] computes them on finite values. *)
Fixpoint orbit (x y : R) (n : nat) : R * R :=
  match n with
  | O => (0, 0)%R
  | S n' =>
      let (a, b) := orbit x y n' in
      (a * a + - (b * b) + x, a * b + b * a + y)%R
  end.

Definition normsq (p : R * R) : R := (fst p * fst p + snd p * snd p)%R.

(** ** Saving the animation *)

(** [str.lower] on one character. *)
Definition lower_char (c : Ascii.ascii) : Ascii.ascii :=
  let n := Ascii.N_of_ascii c in
  if ((65 <=? n) && (n <=? 90)
      || (192 <=? n) && (n <=? 222) && negb (n =? 215))%N
  then Ascii.ascii_of_N (n + 32)
  else c.

(** [s.lower()] *)
Fixpoint py_lower (s : string) : string :=
  match s with
  | EmptyString => EmptyString
  | String c s' => String (lower_char c) (py_lower s')
  end.

(** [s.endswith(suffix)] *)
Definition endswith (s suffix : string) : bool :=
  let n := String.length s in
  let k := String.length suffix in
  (k <=? n)%nat && String.eqb (String.substring (n - k) k s) suffix.

(** The path that [render_zoom_in] saves to.  [user_mp4_path] is [None]
    or a string; the empty string counts as no name. *)
Definition mp4_path (res_x res_y num_frames : Z)
    (user_mp4_path : option string) : string :=
  let mp4_path :=
    "renders/Mandlebrot_" +:+ pretty res_x +:+ "_by_" +:+ pretty res_y
    +:+ "_with_" +:+ pretty num_frames +:+ "_steps.mp4" in
  match user_mp4_path with
  | None => mp4_path
  | Some "" => mp4_path
  | Some name =>
      let mp4_path := "renders/" +:+ name in
      if negb (endswith (py_lower mp4_path) ".mp4")
      then mp4_path +:+ ".mp4"
      else mp4_path
  end.

(** [fps = 1/(interval_between_frames*(10**(-3)))] *)
Definition frames_per_second (interval_between_frames : Z) : result pyfloat :=
  fdiv (of_int 1) (fmul (of_int interval_between_frames) (Fin (1 / 1000))).

(** The end of [render_zoom_in]: the path and the frame rate it passes to
    the animation's [save], or [None] when it does not save. *)
Definition save_request (res_x res_y num_frames interval_between_frames : Z)
    (save_as_mp4 : bool) (user_mp4_path : option string)
    : result (option (string * pyfloat)) :=
  let save_as_mp4 := true in
  if save_as_mp4 then
    let mp4_path := mp4_path res_x res_y num_frames user_mp4_path in
    let* fps := frames_per_second interval_between_frames in
    Ok (Some (mp4_path, fps))
  else Ok None.

(** * Properties *)

(** ** Comparisons and division *)

Lemma Rleb_true (x y : R) : Rleb x y = true <-> (x <= y)%R.
Proof. unfold Rleb; destruct (Rle_dec x y); split; intros; try easy. Qed.

Lemma Rleb_false (x y : R) : Rleb x y = false <-> (y < x)%R.
Proof.
  unfold Rleb; destruct (Rle_dec x y); split; intros; try easy; lra.
Qed.

Lemma Reqb_true (x y : R) : Reqb x y = true <-> x = y.
Proof. unfold Reqb; destruct (Req_dec_T x y); split; intros; try easy. Qed.

Lemma Reqb_false (x y : R) : Reqb x y = false <-> x <> y.
Proof. unfold Reqb; destruct (Req_dec_T x y); split; intros; try easy. Qed.

Lemma fdiv_fin (a b : R) :
  b <> 0%R -> fdiv (Fin a) (Fin b) = Ok (Fin (a / b)).
Proof. intros Hb; cbn. apply Reqb_false in Hb. now rewrite Hb. Qed.

Lemma fdiv_by_zero (x : pyfloat) : fdiv x (Fin 0) = Err ZeroDivisionError.
Proof. cbn. now rewrite (proj2 (Reqb_true 0 0) eq_refl). Qed.

(** ** The pixel width *)

Lemma pixel_width_ok (res_x res_y step : Z) :
  Z.min res_x res_y <> 0 -> step <> -1 ->
  pixel_width res_x res_y step = Ok (Fin (width_value res_x res_y step)).
Proof.
  intros Hm Hs. unfold pixel_width, width_value, of_int.
  rewrite fdiv_fin by (apply not_0_IZR; exact Hm).
  cbn [bind fmul].
  rewrite fdiv_fin by (apply not_0_IZR; lia).
  reflexivity.
Qed.

Lemma pixel_width_zero_min (res_x res_y step : Z) :
  Z.min res_x res_y = 0 ->
  pixel_width res_x res_y step = Err ZeroDivisionError.
Proof.
  intros Hm. unfold pixel_width, of_int. rewrite Hm.
  now rewrite fdiv_by_zero.
Qed.

Lemma pixel_width_step_minus_one (res_x res_y : Z) :
  Z.min res_x res_y <> 0 ->
  pixel_width res_x res_y (-1) = Err ZeroDivisionError.
Proof.
  intros Hm. unfold pixel_width, of_int.
  rewrite fdiv_fin by (apply not_0_IZR; exact Hm).
  cbn [bind fmul]. replace (2 * (-1 + 1)) with 0 by lia.
  apply fdiv_by_zero.
Qed.

Lemma width_value_closed (res_x res_y step : Z) :
  0 < Z.min res_x res_y -> 0 <= step ->
  width_value res_x res_y step
  = (4 / (IZR (Z.min res_x res_y) * (IZR step + 1)))%R.
Proof.
  intros Hm Hs. unfold width_value.
  rewrite mult_IZR, plus_IZR.
  assert (0 < IZR (Z.min res_x res_y))%R by (apply IZR_lt; lia).
  assert (0 <= IZR step)%R by (apply IZR_le; lia).
  field. split; lra.
Qed.

Lemma width_value_pos (res_x res_y step : Z) :
  0 < Z.min res_x res_y -> 0 <= step ->
  (0 < width_value res_x res_y step)%R.
Proof.
  intros Hm Hs. rewrite width_value_closed by assumption.
  assert (0 < IZR (Z.min res_x res_y))%R by (apply IZR_lt; lia).
  assert (0 <= IZR step)%R by (apply IZR_le; lia).
  apply Rdiv_lt_0_compat; [lra | nra].
Qed.

Lemma width_value_decreasing (res_x res_y s1 s2 : Z) :
  0 < Z.min res_x res_y -> 0 <= s1 -> s1 < s2 ->
  (width_value res_x res_y s2 < width_value res_x res_y s1)%R.
Proof.
  intros Hm H1 H2. rewrite !width_value_closed by lia.
  assert (0 < IZR (Z.min res_x res_y))%R by (apply IZR_lt; lia).
  assert (0 <= IZR s1)%R by (apply IZR_le; lia).
  assert (IZR s1 < IZR s2)%R by (apply IZR_lt; lia).
  set (m := IZR (Z.min res_x res_y)) in *.
  assert (0 < m * (IZR s1 + 1))%R by (apply Rmult_lt_0_compat; lra).
  assert (0 < m * (IZR s2 + 1))%R by (apply Rmult_lt_0_compat; lra).
  unfold Rdiv. apply Rmult_lt_compat_l; [lra |].
  apply Rinv_lt_contravar.
  - now apply Rmult_lt_0_compat.
  - apply Rmult_lt_compat_l; lra.
Qed.

(** ** The pixel mapping *)

Lemma step_pixel_to_complex_coords_ok (u v res_x res_y : Z) (focus : complex)
    (step : Z) :
  Z.min res_x res_y <> 0 -> step <> -1 ->
  let w := width_value res_x res_y step in
  step_pixel_to_complex_coords u v res_x res_y focus step
  = Ok (Complex
          (fadd (fadd (fadd (real focus) (Fin (- w * (IZR res_x / 2))))
                      (Fin (w / 2)))
                (Fin (IZR u * w)))
          (fsub (fsub (fadd (imag focus) (Fin (w * (IZR res_y / 2))))
                      (Fin (w / 2)))
                (Fin (IZR v * w)))).
Proof.
  intros Hm Hs w. unfold step_pixel_to_complex_coords.
  rewrite pixel_width_ok by assumption. fold w. unfold of_int.
  cbn [bind]. rewrite !fdiv_fin by lra. reflexivity.
Qed.

Lemma step_pixel_to_complex_coords_finite (u v res_x res_y : Z) (a b : R)
    (step : Z) :
  Z.min res_x res_y <> 0 -> step <> -1 ->
  let w := width_value res_x res_y step in
  step_pixel_to_complex_coords u v res_x res_y (Complex (Fin a) (Fin b)) step
  = Ok (Complex (Fin (a + - w * (IZR res_x / 2) + w / 2 + IZR u * w))
                (Fin (b + w * (IZR res_y / 2) + - (w / 2) + - (IZR v * w)))).
Proof.
  intros Hm Hs w.
  rewrite step_pixel_to_complex_coords_ok by assumption. reflexivity.
Qed.

(** ** The iteration *)

Lemma for_range_from_last {St : Type} (f : St -> result St) (n : nat) :
  forall (start : Z) (s : St),
    for_range_from start (S n) (fun _ x => f x) s
    = (let* s' := for_range_from start n (fun _ x => f x) s in f s').
Proof.
  induction n as [|n IH]; intros start s.
  - cbn. now destruct (f s).
  - change (for_range_from start (S (S n)) (fun _ x => f x) s)
      with (let* s' := f s in
            for_range_from (start + 1) (S n) (fun _ x => f x) s').
    cbn [for_range_from bind]. destruct (f s) as [s1|e]; [|reflexivity].
    cbn [bind]. apply IH.
Qed.

Lemma for_range_from_iterate (rule : iteration_rule) (c : complex) (n : nat) :
  forall (start : Z) (z : complex),
    for_range_from start n (fun _ x => rule c x) z = iterate_rule rule c n z.
Proof.
  induction n as [|n IH]; intros start z; [reflexivity|].
  rewrite (for_range_from_last (rule c)). cbn [iterate_rule].
  now rewrite IH.
Qed.

Lemma recursion_nonpositive (c : complex) (N : Z) (rule : iteration_rule) :
  N <= 0 -> recursion c N rule = Err ValueError.
Proof.
  intros HN. unfold recursion.
  now rewrite (proj2 (Z.leb_le N 0) HN).
Qed.

Lemma recursion_iterate (c : complex) (N : Z) (rule : iteration_rule) :
  1 <= N -> recursion c N rule = iterate_rule rule c (Z.to_nat N) czero.
Proof.
  intros HN. unfold recursion, for_range.
  rewrite (proj2 (Z.leb_gt N 0)) by lia.
  apply for_range_from_iterate.
Qed.

Lemma recursion_total (c : complex) (N : Z) (rule : iteration_rule) :
  total_rule rule -> 1 <= N -> exists z, recursion c N rule = Ok z.
Proof.
  intros Ht HN. rewrite recursion_iterate by assumption.
  induction (Z.to_nat N) as [|n [z Hz]]; cbn.
  - now exists czero.
  - rewrite Hz. cbn. apply Ht.
Qed.

Lemma mandlebrot_f_total : total_rule mandlebrot_f.
Proof. intros c z. now eexists. Qed.

Lemma recursion_once_finite (x y : R) :
  recursion (Complex (Fin x) (Fin y)) 1 mandlebrot_f
  = Ok (Complex (Fin x) (Fin y)).
Proof.
  rewrite recursion_iterate by lia.
  change (Z.to_nat 1) with 1%nat. cbn.
  unfold mandlebrot_f, czero, cadd, cmul. cbn.
  f_equal. f_equal; f_equal; ring.
Qed.

(** ** The colour of a point *)

Lemma get_colour_outside (c : complex) (N : Z) (rule : iteration_rule) :
  fge (cabs c) (Fin 2) = true -> get_colour c N rule = Ok (Fin 0).
Proof.
  intros Hc. unfold get_colour, py_abs, of_int. cbn [bind].
  now rewrite Hc.
Qed.

Lemma get_colour_inside (c : complex) (N : Z) (rule : iteration_rule) :
  fge (cabs c) (Fin 2) = false ->
  get_colour c N rule
  = (let* final_z := recursion c N rule in
     if np_isnan (cabs final_z) then Ok (Fin 0)
     else if fle (cabs final_z) (Fin 2) then Ok (Fin 1)
     else Ok (np_exp (fmul (fneg (Fin (1 / 100)))
                           (fsub (cabs final_z) (Fin 2))))).
Proof.
  intros Hc. unfold get_colour, py_abs, of_int. cbn [bind].
  now rewrite Hc.
Qed.

Lemma falloff_finite (m : R) :
  np_exp (fmul (fneg (Fin (1 / 100))) (fsub (Fin m) (Fin 2)))
  = Fin (exp (- (1 / 100) * (m + - 2))).
Proof. reflexivity. Qed.

Lemma falloff_infinite :
  np_exp (fmul (fneg (Fin (1 / 100))) (fsub PInf (Fin 2))) = Fin 0.
Proof.
  cbn. unfold signed_inf.
  rewrite (proj2 (Reqb_false (- (1 / 100)) 0)) by lra.
  unfold Rltb. destruct (Rlt_dec 0 (- (1 / 100))); [exfalso; lra | reflexivity].
Qed.

Lemma falloff_range (m : R) :
  (2 < m)%R -> (0 < exp (- (1 / 100) * (m + - 2)) < 1)%R.
Proof.
  intros Hm. split; [apply exp_pos |].
  assert (Hneg : (- (1 / 100) * (m + - 2) < 0)%R) by lra.
  apply exp_increasing in Hneg. now rewrite exp_0 in Hneg.
Qed.

Lemma falloff_decreasing (m1 m2 : R) :
  (m1 < m2)%R ->
  (exp (- (1 / 100) * (m2 + - 2)) < exp (- (1 / 100) * (m1 + - 2)))%R.
Proof. intros H. apply exp_increasing. lra. Qed.

Lemma intensity_0 : intensity (Fin 0).
Proof. exists 0%R. split; [reflexivity | lra]. Qed.

Lemma intensity_1 : intensity (Fin 1).
Proof. exists 1%R. split; [reflexivity | lra]. Qed.

Lemma get_colour_intensity (c : complex) (N : Z) (rule : iteration_rule)
    (x : pyfloat) :
  get_colour c N rule = Ok x -> intensity x.
Proof.
  destruct (fge (cabs c) (Fin 2)) eqn:Hc.
  - rewrite get_colour_outside by assumption.
    intros [= <-]. apply intensity_0.
  - rewrite get_colour_inside by assumption.
    destruct (recursion c N rule) as [z|e]; cbn [bind]; [|discriminate].
    destruct (cabs z) as [m| | |] eqn:Hz; cbn [np_isnan].
    + cbn [fle]. destruct (Rleb m 2) eqn:Hm.
      * intros [= <-]. apply intensity_1.
      * rewrite falloff_finite. intros [= <-].
        apply Rleb_false in Hm. destruct (falloff_range m Hm).
        eexists. split; [reflexivity | lra].
    + cbn [fle]. rewrite falloff_infinite. intros [= <-]. apply intensity_0.
    + cbn [fle]. intros [= <-]. apply intensity_1.
    + intros [= <-]. apply intensity_0.
Qed.

Lemma get_colour_returns (c : complex) (N : Z) (rule : iteration_rule) :
  total_rule rule -> 1 <= N -> exists x, get_colour c N rule = Ok x.
Proof.
  intros Ht HN. destruct (fge (cabs c) (Fin 2)) eqn:Hc.
  - rewrite get_colour_outside by assumption. now eexists.
  - rewrite get_colour_inside by assumption.
    destruct (recursion_total c N rule Ht HN) as [z ->]. cbn [bind].
    destruct (np_isnan (cabs z)); [now eexists|].
    destruct (fle (cabs z) (Fin 2)); now eexists.
Qed.

(** ** Loops and arrays *)

Lemma for_range_from_invariant {St : Type} (P : St -> Prop)
    (body : Z -> St -> result St) (n : nat) :
  forall (start : Z) (s : St),
    (forall i s0, start <= i < start + Z.of_nat n -> P s0 ->
                  exists s1, body i s0 = Ok s1 /\ P s1) ->
    P s ->
    exists s', for_range_from start n body s = Ok s' /\ P s'.
Proof.
  induction n as [|n IH]; intros start s Hbody Hs.
  - exists s. now split.
  - destruct (Hbody start s ltac:(lia) Hs) as (s1 & Hs1 & HP1).
    cbn [for_range_from]. rewrite Hs1. cbn [bind].
    apply IH; [|exact HP1].
    intros i s0 Hi. apply Hbody. lia.
Qed.

Lemma for_range_invariant {St : Type} (P : St -> Prop)
    (body : Z -> St -> result St) (n : Z) (s : St) :
  (forall i s0, 0 <= i < n -> P s0 -> exists s1, body i s0 = Ok s1 /\ P s1) ->
  P s ->
  exists s', for_range n body s = Ok s' /\ P s'.
Proof.
  intros Hbody Hs. unfold for_range.
  apply for_range_from_invariant; [|exact Hs].
  intros i s0 Hi. apply Hbody. lia.
Qed.

Lemma for_range_first_raises {St : Type} (body : Z -> St -> result St)
    (n : Z) (s : St) (e : exn) :
  0 < n -> body 0 s = Err e -> for_range n body s = Err e.
Proof.
  intros Hn Hb. unfold for_range.
  destruct (Z.to_nat n) as [|k] eqn:Hk; [lia|].
  cbn [for_range_from]. now rewrite Hb.
Qed.

Lemma np_zeros_grid (nx ny : Z) :
  0 <= nx -> 0 <= ny ->
  exists a, np_zeros nx ny = Ok a /\ intensity_grid nx ny a.
Proof.
  intros Hx Hy. unfold np_zeros.
  rewrite (proj2 (Z.ltb_ge nx 0)), (proj2 (Z.ltb_ge ny 0)) by lia.
  cbn [orb]. eexists. split; [reflexivity|]. split.
  - rewrite length_replicate. lia.
  - apply Forall_replicate. split.
    + rewrite length_replicate. lia.
    + apply Forall_replicate, intensity_0.
Qed.

Lemma axis_index_in_range (i : Z) (len : nat) :
  0 <= i < Z.of_nat len -> axis_index i len = Ok (Z.to_nat i).
Proof.
  intros Hi. unfold axis_index.
  rewrite (proj2 (Z.ltb_ge i 0)) by lia.
  rewrite (proj2 (Z.leb_le 0 i)), (proj2 (Z.ltb_lt i (Z.of_nat len))) by lia.
  reflexivity.
Qed.

Lemma setitem_grid (nx ny u v : Z) (a : ndarray) (x : pyfloat) :
  0 <= u < nx -> 0 <= v < ny -> intensity_grid nx ny a -> intensity x ->
  exists a', setitem a u v x = Ok a' /\ intensity_grid nx ny a'.
Proof.
  intros Hu Hv [Hlen Hrows] Hx. unfold setitem.
  rewrite axis_index_in_range by lia. cbn [bind].
  destruct (lookup_lt_is_Some_2 a (Z.to_nat u) ltac:(lia)) as [row Hrow].
  rewrite Hrow.
  destruct (proj1 (Forall_lookup _ a) Hrows _ _ Hrow) as [Hrl Hri].
  rewrite axis_index_in_range by lia. cbn [bind].
  eexists. split; [reflexivity|]. split.
  - rewrite length_insert. exact Hlen.
  - apply Forall_insert; [exact Hrows|]. split.
    + rewrite length_insert. exact Hrl.
    + apply Forall_insert; assumption.
Qed.

(** ** A frame *)

Section Frame.

Variables (step res_x res_y : Z) (focus : complex) (N : Z).
Variable rule : iteration_rule.

Hypothesis res_x_pos : 0 < res_x.
Hypothesis res_y_pos : 0 < res_y.
Hypothesis step_valid : step <> -1.
Hypothesis depth_pos : 1 <= N.
Hypothesis rule_total : total_rule rule.

(** The body of the inner loop keeps the matrix a grid of intensities. *)
Lemma pixel_body_grid (u v : Z) (a : ndarray) :
  0 <= u < res_x -> 0 <= v < res_y -> intensity_grid res_x res_y a ->
  exists a',
    (let* c := step_pixel_to_complex_coords u v res_x res_y focus step in
     let* colour := get_colour c N rule in
     setitem a u v colour) = Ok a' /\
    intensity_grid res_x res_y a'.
Proof using res_x_pos res_y_pos step_valid depth_pos rule_total.
  intros Hu Hv Ha.
  rewrite step_pixel_to_complex_coords_ok by lia. cbn [bind].
  match goal with
  | |- context [get_colour ?c N rule] =>
      destruct (get_colour_returns c N rule rule_total depth_pos) as [x Hc];
      rewrite Hc; cbn [bind];
      apply (setitem_grid res_x res_y u v a x Hu Hv Ha);
      exact (get_colour_intensity c N rule x Hc)
  end.
Qed.

Lemma step_get_image_vals_grid :
  exists grid,
    step_get_image_vals step res_x res_y focus N rule = Ok grid /\
    intensity_grid res_x res_y grid.
Proof using res_x_pos res_y_pos step_valid depth_pos rule_total.
  unfold step_get_image_vals.
  destruct (np_zeros_grid res_x res_y) as (a0 & -> & Ha0); try lia.
  cbn [bind].
  apply for_range_invariant; [|exact Ha0].
  intros u a1 Hu Ha1.
  apply for_range_invariant; [|exact Ha1].
  intros v a2 Hv Ha2. now apply pixel_body_grid.
Qed.

End Frame.

(** ** The sequencer *)

Lemma resolution_guard (res_x res_y : Z) :
  (res_x mod 2 =? 1) || (res_y mod 2 =? 1) || (res_x <=? 2) || (res_y <=? 2)
  = false <-> valid_resolution res_x res_y.
Proof.
  unfold valid_resolution.
  rewrite !orb_false_iff, !Z.eqb_neq, !Z.leb_gt.
  pose proof (Z.mod_pos_bound res_x 2 ltac:(lia)).
  pose proof (Z.mod_pos_bound res_y 2 ltac:(lia)).
  lia.
Qed.

Lemma zoom_in_step_invalid_resolution (step : Z) (focus : complex)
    (res_x res_y num_frames recentering_steps N : Z) :
  ~ valid_resolution res_x res_y ->
  zoom_in_step step focus res_x res_y num_frames recentering_steps N
  = Err ValueError.
Proof.
  intros Hres. unfold zoom_in_step.
  destruct ((res_x mod 2 =? 1) || (res_y mod 2 =? 1) || (res_x <=? 2)
            || (res_y <=? 2)) eqn:Hg; [reflexivity|].
  now apply resolution_guard in Hg.
Qed.

Lemma zoom_in_step_negative_step (step : Z) (focus : complex)
    (res_x res_y num_frames recentering_steps N : Z) :
  step < 0 ->
  zoom_in_step step focus res_x res_y num_frames recentering_steps N
  = Err ValueError.
Proof.
  intros Hs. unfold zoom_in_step.
  destruct ((res_x mod 2 =? 1) || (res_y mod 2 =? 1) || (res_x <=? 2)
            || (res_y <=? 2)); [reflexivity|].
  now rewrite (proj2 (Z.ltb_lt step 0) Hs).
Qed.

Lemma zoom_in_step_fixed_focus (step : Z) (focus : complex)
    (res_x res_y num_frames recentering_steps N : Z) :
  valid_resolution res_x res_y -> 0 <= step -> recentering_steps < step ->
  zoom_in_step step focus res_x res_y num_frames recentering_steps N
  = step_get_image_vals step res_x res_y focus N mandlebrot_f.
Proof.
  intros Hres H0 Hs. unfold zoom_in_step.
  rewrite (proj2 (resolution_guard res_x res_y) Hres).
  rewrite (proj2 (Z.ltb_ge step 0)) by lia.
  now rewrite (proj2 (Z.leb_gt step recentering_steps)) by lia.
Qed.

Lemma cdiv_int_zero (a : complex) : cdiv_int a 0 = Err ZeroDivisionError.
Proof. unfold cdiv_int, of_int. now rewrite fdiv_by_zero. Qed.

Lemma zoom_in_step_no_recentering_first (focus : complex)
    (res_x res_y num_frames N : Z) :
  valid_resolution res_x res_y ->
  zoom_in_step 0 focus res_x res_y num_frames 0 N = Err ZeroDivisionError.
Proof.
  intros Hres. unfold zoom_in_step.
  rewrite (proj2 (resolution_guard res_x res_y) Hres).
  cbn [Z.ltb Z.leb Z.compare]. now rewrite cdiv_int_zero.
Qed.

(** ** Magnitudes *)

Lemma sqrt_ge_2 (s : R) : (0 <= s)%R -> (2 <= sqrt s)%R <-> (4 <= s)%R.
Proof.
  intros Hs. split; intros H.
  - rewrite <- (sqrt_sqrt s Hs). nra.
  - replace 2%R with (sqrt (2 * 2)) by (apply sqrt_square; lra).
    apply sqrt_le_1_alt. lra.
Qed.

Lemma sum_squares_nonneg (x y : R) : (0 <= x * x + y * y)%R.
Proof. nra. Qed.

Lemma cabs_finite (x y : R) :
  cabs (Complex (Fin x) (Fin y)) = Fin (sqrt (x * x + y * y)).
Proof. reflexivity. Qed.

Lemma cabs_ge_2_finite (x y : R) :
  fge (cabs (Complex (Fin x) (Fin y))) (Fin 2) = Rleb 4 (x * x + y * y).
Proof.
  rewrite cabs_finite. unfold fge. cbn [fle].
  pose proof (sqrt_ge_2 _ (sum_squares_nonneg x y)) as Hiff.
  destruct (Rleb 4 (x * x + y * y)) eqn:H4.
  - apply Rleb_true. apply Hiff. now apply Rleb_true.
  - apply Rleb_false. apply Rleb_false in H4.
    destruct (Rlt_le_dec (sqrt (x * x + y * y)) 2) as [Hlt|Hge];
      [exact Hlt | apply Hiff in Hge; lra].
Qed.

Lemma cabs_le_2_finite (x y : R) :
  (x * x + y * y <= 4)%R ->
  fle (cabs (Complex (Fin x) (Fin y))) (Fin 2) = true.
Proof.
  intros H. rewrite cabs_finite. cbn [fle]. apply Rleb_true.
  replace 2%R with (sqrt (2 * 2)) by (apply sqrt_square; lra).
  apply sqrt_le_1_alt. lra.
Qed.

Lemma cabs_axis (w : R) :
  (0 <= w)%R ->
  cabs (Complex (Fin w) (Fin 0)) = Fin w /\
  cabs (Complex (Fin 0) (Fin (- w))) = Fin w.
Proof.
  intros Hw. rewrite !cabs_finite. split; f_equal.
  - replace (w * w + 0 * 0)%R with (w * w)%R by ring. now apply sqrt_square.
  - replace (0 * 0 + - w * - w)%R with (w * w)%R by ring. now apply sqrt_square.
Qed.

(** ** The 4 by 4 scenario *)

Lemma width_value_4_4_0 : width_value 4 4 0 = 1%R.
Proof.
  unfold width_value. change (Z.min 4 4) with 4. change (2 * (0 + 1)) with 2.
  field.
Qed.

Lemma scenario_pixel (u v : Z) :
  step_pixel_to_complex_coords u v 4 4 czero 0
  = Ok (Complex (Fin (IZR u - 3 / 2)) (Fin (3 / 2 - IZR v))).
Proof.
  unfold czero. rewrite step_pixel_to_complex_coords_finite by easy.
  rewrite width_value_4_4_0. do 2 f_equal; f_equal; field.
Qed.

Lemma get_colour_once_inside (x y : R) :
  (x * x + y * y < 4)%R ->
  get_colour (Complex (Fin x) (Fin y)) 1 mandlebrot_f = Ok (Fin 1).
Proof.
  intros H. rewrite get_colour_inside.
  - rewrite recursion_once_finite. cbn [bind].
    rewrite cabs_le_2_finite by lra. reflexivity.
  - rewrite cabs_ge_2_finite. now apply Rleb_false.
Qed.

Lemma get_colour_finite_outside (x y : R) (N : Z) (rule : iteration_rule) :
  (4 <= x * x + y * y)%R ->
  get_colour (Complex (Fin x) (Fin y)) N rule = Ok (Fin 0).
Proof.
  intros H. apply get_colour_outside.
  rewrite cabs_ge_2_finite. now apply Rleb_true.
Qed.

(** * The claims of the specification *)

Lemma valid_resolution_4_4 : valid_resolution 4 4.
Proof. unfold valid_resolution. repeat split; reflexivity. Qed.

Lemma valid_resolution_min (res_x res_y : Z) :
  valid_resolution res_x res_y -> 2 < Z.min res_x res_y.
Proof. unfold valid_resolution. lia. Qed.

(** C1. With [recentering_steps = 0] the first frame is not computed with
    the supplied focus: step 0 still enters the recentering branch, whose
    interpolation [focus * 0 / 0] raises [ZeroDivisionError].  Every later
    step is rendered with the supplied focus. *)
Theorem C1_no_recentering_first_frame_raises (focus : complex)
    (res_x res_y num_frames N : Z) :
  valid_resolution res_x res_y ->
  zoom_in_step 0 focus res_x res_y num_frames 0 N = Err ZeroDivisionError /\
  forall s, 1 <= s ->
    zoom_in_step s focus res_x res_y num_frames 0 N
    = step_get_image_vals s res_x res_y focus N mandlebrot_f.
Proof.
  intros Hres. split.
  - now apply zoom_in_step_no_recentering_first.
  - intros s Hs. apply zoom_in_step_fixed_focus; [exact Hres | lia | lia].
Qed.

(** C1 at the first frame of a run without recentering frames. *)
Lemma C1_failing_input :
  zoom_in_step 0 (Complex (Fin 1) (Fin 1)) 4 4 20 0 10
  = Err ZeroDivisionError.
Proof.
  apply (C1_no_recentering_first_frame_raises
           (Complex (Fin 1) (Fin 1)) 4 4 20 10).
  exact valid_resolution_4_4.
Defined.

(** C2, as stated: a point outside the disc of radius 2 is coloured 0
    even when [N = 0]; no error is raised. *)
Lemma C2_counterexample :
  0 <= 0 /\
  get_colour (Complex (Fin 3) (Fin 0)) 0 mandlebrot_f = Ok (Fin 0) /\
  ~ raises (get_colour (Complex (Fin 3) (Fin 0)) 0 mandlebrot_f).
Proof.
  assert (H : get_colour (Complex (Fin 3) (Fin 0)) 0 mandlebrot_f
              = Ok (Fin 0)) by (apply get_colour_finite_outside; lra).
  split; [lia|]. split; [exact H|].
  intros [e He]. rewrite H in He. discriminate.
Qed.

(** C2, amended: for every [c] that does not satisfy [abs(c) >= 2] and
    every [N <= 0], [get_colour] raises [ValueError], whatever the rule
    is, so before any iteration of it. *)
Theorem C2_nonpositive_depth_raises_inside (c : complex) (N : Z)
    (rule : iteration_rule) :
  fge (cabs c) (Fin 2) = false -> N <= 0 ->
  get_colour c N rule = Err ValueError.
Proof.
  intros Hc HN. rewrite get_colour_inside by exact Hc.
  now rewrite recursion_nonpositive.
Qed.

(** C2, amended, at the origin with [N = 0]. *)
Lemma C2_witness : get_colour czero 0 mandlebrot_f = Err ValueError.
Proof.
  apply (C2_nonpositive_depth_raises_inside czero 0 mandlebrot_f).
  - unfold czero. rewrite cabs_ge_2_finite. apply Rleb_false. lra.
  - lia.
Defined.

(** C3, as stated: the corner pixel [(0, 0)] of the scenario maps to
    [c = -1.5 + 1.5j], whose magnitude exceeds 2, and is coloured 0, not
    with the falloff value [exp(-0.01 * (|c| - 2))]. *)
Lemma C3_counterexample :
  let c := Complex (Fin (- 3 / 2)) (Fin (3 / 2)) in
  let m := sqrt (- 3 / 2 * (- 3 / 2) + 3 / 2 * (3 / 2)) in
  step_pixel_to_complex_coords 0 0 4 4 czero 0 = Ok c /\
  cabs c = Fin m /\ (2 < m)%R /\
  get_colour c 1 mandlebrot_f = Ok (Fin 0) /\
  get_colour c 1 mandlebrot_f <> Ok (Fin (exp (- (1 / 100) * (m - 2)))).
Proof.
  intros c m.
  assert (Hm : (2 < m)%R).
  { unfold m. replace 2%R with (sqrt (2 * 2)) at 1 by (apply sqrt_square; lra).
    apply sqrt_lt_1_alt. lra. }
  assert (Hc : get_colour c 1 mandlebrot_f = Ok (Fin 0))
    by (apply get_colour_finite_outside; lra).
  split; [|split; [|split; [|split]]].
  - rewrite scenario_pixel. do 2 f_equal; f_equal; lra.
  - reflexivity.
  - exact Hm.
  - exact Hc.
  - rewrite Hc. intros [= H0].
    pose proof (exp_pos (- (1 / 100) * (m - 2))). lra.
Qed.

Lemma scenario_grid :
  step_get_image_vals 0 4 4 czero 1 mandlebrot_f
  = Ok [ [Fin 0; Fin 1; Fin 1; Fin 0];
         [Fin 1; Fin 1; Fin 1; Fin 1];
         [Fin 1; Fin 1; Fin 1; Fin 1];
         [Fin 0; Fin 1; Fin 1; Fin 0] ].
Proof.
  unfold step_get_image_vals, np_zeros, for_range.
  change (Z.to_nat 4) with 4%nat.
  cbn [Z.ltb Z.compare orb bind replicate for_range_from].
  change (0 + 1 + 1 + 1) with 3. change (0 + 1 + 1) with 2.
  change (0 + 1) with 1.
  rewrite !scenario_pixel. cbn [bind].
  repeat first [ rewrite get_colour_finite_outside by lra
               | rewrite get_colour_once_inside by lra ].
  cbn [bind].
  repeat (run_setitem; cbn [bind]).
  reflexivity.
Qed.

Lemma scenario_corners (u v : Z) :
  0 <= u < 4 -> 0 <= v < 4 ->
  fge (cabs (Complex (Fin (IZR u - 3 / 2)) (Fin (3 / 2 - IZR v)))) (Fin 2)
  = true
  <-> (u = 0 \/ u = 3) /\ (v = 0 \/ v = 3).
Proof.
  intros Hu Hv. rewrite cabs_ge_2_finite.
  assert (Hu' : u = 0 \/ u = 1 \/ u = 2 \/ u = 3) by lia.
  assert (Hv' : v = 0 \/ v = 1 \/ v = 2 \/ v = 3) by lia.
  destruct Hu' as [-> | [-> | [-> | ->]]];
    destruct Hv' as [-> | [-> | [-> | ->]]];
    split; intros H;
    first [ lia
          | exfalso; lia
          | apply Rleb_true; lra
          | apply Rleb_true in H; exfalso; lra ].
Qed.

(** C3, amended: in the scenario [resolution = (4, 4)], [N = 1],
    [focus = 0], [step = 0], pixel [(u, v)] maps to
    [c = (u - 1.5) + (1.5 - v)j], one iteration of the default rule ends
    at [z_final = c], and the intensity is 1 for every pixel that does not
    satisfy [|c| >= 2] and 0 for every pixel with [|c| >= 2], which are
    the four corners; the frame is the matrix of these sixteen values. *)
Theorem C3_scenario_intensities (u v : Z) :
  0 <= u < 4 -> 0 <= v < 4 ->
  let c := Complex (Fin (IZR u - 3 / 2)) (Fin (3 / 2 - IZR v)) in
  step_pixel_to_complex_coords u v 4 4 czero 0 = Ok c /\
  recursion c 1 mandlebrot_f = Ok c /\
  (fge (cabs c) (Fin 2) = false -> get_colour c 1 mandlebrot_f = Ok (Fin 1)) /\
  (fge (cabs c) (Fin 2) = true -> get_colour c 1 mandlebrot_f = Ok (Fin 0)) /\
  (fge (cabs c) (Fin 2) = true <-> (u = 0 \/ u = 3) /\ (v = 0 \/ v = 3)) /\
  step_get_image_vals 0 4 4 czero 1 mandlebrot_f
  = Ok [ [Fin 0; Fin 1; Fin 1; Fin 0];
         [Fin 1; Fin 1; Fin 1; Fin 1];
         [Fin 1; Fin 1; Fin 1; Fin 1];
         [Fin 0; Fin 1; Fin 1; Fin 0] ].
Proof.
  intros Hu Hv c. repeat apply conj.
  - apply scenario_pixel.
  - apply recursion_once_finite.
  - intros Hc. unfold c in *. rewrite cabs_ge_2_finite in Hc.
    apply Rleb_false in Hc. now apply get_colour_once_inside.
  - intros Hc. now apply get_colour_outside.
  - apply scenario_corners; assumption.
  - apply scenario_corners; assumption.
  - exact scenario_grid.
Qed.

(** C3, amended, at pixel [(1, 2)]. *)
Lemma C3_witness :
  step_pixel_to_complex_coords 1 2 4 4 czero 0
  = Ok (Complex (Fin (IZR 1 - 3 / 2)) (Fin (3 / 2 - IZR 2))).
Proof.
  apply (C3_scenario_intensities 1 2); lia.
Defined.










(** C8. For an even resolution [(W, H)] with [W, H > 2], focus 0 and a
    step [>= 0], pixel [(W/2, H/2)] maps to a point whose magnitude is
    strictly below the pixel width [w]. *)
Theorem C8_centre_pixel_within_one_width (W H step : Z) :
  valid_resolution W H -> 0 <= step ->
  exists p m w,
    step_pixel_to_complex_coords (W / 2) (H / 2) W H czero step = Ok p /\
    pixel_width W H step = Ok (Fin w) /\
    cabs p = Fin m /\
    (m < w)%R.
Proof.
  intros Hres Hs.
  pose proof (valid_resolution_min W H Hres) as Hm.
  destruct Hres as (HW & HH & _ & _).
  pose proof (width_value_pos W H step ltac:(lia) Hs) as Hw.
  unfold czero. rewrite step_pixel_to_complex_coords_finite by lia.
  rewrite pixel_width_ok by lia.
  set (w := width_value W H step) in *.
  do 3 eexists. repeat (split; [reflexivity|]).
  assert (HW2 : IZR W = (2 * IZR (W / 2))%R).
  { rewrite <- mult_IZR. f_equal. pose proof (Z.div_mod W 2). lia. }
  assert (HH2 : IZR H = (2 * IZR (H / 2))%R).
  { rewrite <- mult_IZR. f_equal. pose proof (Z.div_mod H 2). lia. }
  rewrite HW2, HH2.
  apply Rlt_le_trans with (sqrt (w * w));
    [|rewrite sqrt_square by lra; apply Rle_refl].
  apply sqrt_lt_1_alt. split; [apply sum_squares_nonneg|].
  match goal with
  | |- (?x * ?x + ?y * ?y < _)%R =>
      replace x with (w / 2)%R by field;
      replace y with (- (w / 2))%R by field
  end.
  nra.
Qed.

(** C8 at resolution [(4, 4)], step 0. *)
Lemma C8_witness :
  exists p m w,
    step_pixel_to_complex_coords (4 / 2) (4 / 2) 4 4 czero 0 = Ok p /\
    pixel_width 4 4 0 = Ok (Fin w) /\
    cabs p = Fin m /\
    (m < w)%R.
Proof.
  apply (C8_centre_pixel_within_one_width 4 4 0).
  - exact valid_resolution_4_4.
  - lia.
Defined.





(** * Further properties of the renderer *)

(** ** Loops: what a returned or a raised result tells *)

Lemma for_range_from_outcome {St : Type} (P : Z -> St -> Prop)
    (E : exn -> Prop) (body : Z -> St -> result St) (n : nat) :
  forall (start : Z) (s : St),
    P start s ->
    (forall i s0, start <= i < start + Z.of_nat n -> P i s0 ->
       match body i s0 with
       | Ok s1 => P (i + 1) s1
       | Err e => E e
       end) ->
    match for_range_from start n body s with
    | Ok s' => P (start + Z.of_nat n) s'
    | Err e => E e
    end.
Proof.
  induction n as [|n IH]; intros start s Hs Hbody.
  - cbn. now replace (start + Z.of_nat 0) with start by lia.
  - cbn [for_range_from].
    pose proof (Hbody start s ltac:(lia) Hs) as H0.
    destruct (body start s) as [s1|e]; cbn [bind]; [|exact H0].
    replace (start + Z.of_nat (S n)) with (start + 1 + Z.of_nat n) by lia.
    apply IH; [exact H0|].
    intros i s0 Hi. apply Hbody. lia.
Qed.

Lemma for_range_outcome {St : Type} (P : Z -> St -> Prop)
    (E : exn -> Prop) (body : Z -> St -> result St) (n : Z) (s : St) :
  0 <= n ->
  P 0 s ->
  (forall i s0, 0 <= i < n -> P i s0 ->
     match body i s0 with
     | Ok s1 => P (i + 1) s1
     | Err e => E e
     end) ->
  match for_range n body s with
  | Ok s' => P n s'
  | Err e => E e
  end.
Proof.
  intros Hn Hs Hbody. unfold for_range.
  pose proof (for_range_from_outcome P E body (Z.to_nat n) 0 s Hs) as H.
  rewrite Z2Nat.id in H by exact Hn. cbn [Z.add] in H.
  apply H. intros i s0 Hi. apply Hbody. lia.
Qed.

(** A loop whose body raises [e] at some index, and raises nothing else
    before, raises [e]. *)
Lemma for_range_raises {St : Type} (P : St -> Prop) (e : exn)
    (body : Z -> St -> result St) (n : Z) (s : St) (k : Z) :
  0 <= k < n ->
  P s ->
  (forall i s0, 0 <= i < n -> P s0 ->
     (exists s1, body i s0 = Ok s1 /\ P s1) \/ body i s0 = Err e) ->
  (forall s0, P s0 -> body k s0 = Err e) ->
  for_range n body s = Err e.
Proof.
  intros Hk Hs Hbody Hfail.
  pose proof (for_range_outcome
                (fun i s0 => P s0 /\ i <= k) (fun e' => e' = e) body n s
                ltac:(lia) ltac:(split; [exact Hs | lia])) as H.
  destruct (for_range n body s) as [s'|e'].
  - exfalso. enough (P s' /\ n <= k) by lia. apply H.
    intros i s0 Hi [Hs0 Hik].
    destruct (Z.eq_dec i k) as [->|Hne].
    + now rewrite (Hfail s0 Hs0).
    + destruct (Hbody i s0 Hi Hs0) as [(s1 & -> & Hs1) | ->];
        [split; [exact Hs1 | lia] | reflexivity].
  - f_equal. apply H.
    intros i s0 Hi [Hs0 Hik].
    destruct (Z.eq_dec i k) as [->|Hne].
    + now rewrite (Hfail s0 Hs0).
    + destruct (Hbody i s0 Hi Hs0) as [(s1 & -> & Hs1) | ->];
        [split; [exact Hs1 | lia] | reflexivity].
Qed.

(** ** Array writes *)

Lemma np_zeros_shape (nx ny : Z) (a : ndarray) :
  np_zeros nx ny = Ok a ->
  0 <= nx /\ 0 <= ny /\ shape nx ny a /\
  a = replicate (Z.to_nat nx) (replicate (Z.to_nat ny) (Fin 0)).
Proof.
  unfold np_zeros.
  destruct (nx <? 0) eqn:Hx; [discriminate|].
  destruct (ny <? 0) eqn:Hy; [discriminate|].
  cbn [orb]. intros [= <-].
  apply Z.ltb_ge in Hx, Hy. repeat split; try assumption.
  - rewrite length_replicate. lia.
  - apply Forall_replicate. rewrite length_replicate. lia.
Qed.

Lemma np_zeros_negative (nx ny : Z) :
  nx < 0 \/ ny < 0 -> np_zeros nx ny = Err ValueError.
Proof.
  intros H. unfold np_zeros.
  destruct (nx <? 0) eqn:Hx; [reflexivity|].
  destruct (ny <? 0) eqn:Hy; [reflexivity|].
  apply Z.ltb_ge in Hx, Hy. lia.
Qed.

Lemma setitem_in_range (nx ny u v : Z) (a : ndarray) (x : pyfloat) :
  0 <= u < nx -> 0 <= v < ny -> shape nx ny a ->
  exists row,
    a !! Z.to_nat u = Some row /\
    setitem a u v x = Ok (<[Z.to_nat u := <[Z.to_nat v := x]> row]> a).
Proof.
  intros Hu Hv [Hlen Hrows]. unfold setitem.
  rewrite axis_index_in_range by lia. cbn [bind].
  destruct (lookup_lt_is_Some_2 a (Z.to_nat u) ltac:(lia)) as [row Hrow].
  exists row. split; [exact Hrow|]. rewrite Hrow.
  pose proof (proj1 (Forall_lookup _ a) Hrows _ _ Hrow) as Hrl.
  cbn beta in Hrl.
  now rewrite axis_index_in_range by lia.
Qed.

Lemma setitem_shape (nx ny u v : Z) (a a' : ndarray) (x : pyfloat) :
  0 <= u < nx -> 0 <= v < ny -> shape nx ny a ->
  setitem a u v x = Ok a' -> shape nx ny a'.
Proof.
  intros Hu Hv Ha Hset.
  destruct (setitem_in_range nx ny u v a x Hu Hv Ha) as (row & Hrow & Heq).
  rewrite Heq in Hset. injection Hset as <-.
  destruct Ha as [Hlen Hrows]. split.
  - now rewrite length_insert.
  - apply Forall_insert; [exact Hrows|].
    rewrite length_insert.
    exact (proj1 (Forall_lookup _ a) Hrows _ _ Hrow).
Qed.

Lemma setitem_cell_same (nx ny u v : Z) (a a' : ndarray) (x : pyfloat) :
  0 <= u < nx -> 0 <= v < ny -> shape nx ny a ->
  setitem a u v x = Ok a' -> cell a' u v = Some x.
Proof.
  intros Hu Hv Ha Hset.
  destruct (setitem_in_range nx ny u v a x Hu Hv Ha) as (row & Hrow & Heq).
  rewrite Heq in Hset. injection Hset as <-.
  destruct Ha as [Hlen Hrows].
  pose proof (proj1 (Forall_lookup _ a) Hrows _ _ Hrow) as Hrl.
  cbn beta in Hrl. unfold cell.
  rewrite list_lookup_insert_eq by lia.
  apply list_lookup_insert_eq. lia.
Qed.

Lemma setitem_cell_other (nx ny u v u' v' : Z) (a a' : ndarray)
    (x : pyfloat) :
  0 <= u < nx -> 0 <= v < ny -> shape nx ny a ->
  0 <= u' -> 0 <= v' -> (u', v') <> (u, v) ->
  setitem a u v x = Ok a' -> cell a' u' v' = cell a u' v'.
Proof.
  intros Hu Hv Ha Hu' Hv' Hne Hset.
  destruct (setitem_in_range nx ny u v a x Hu Hv Ha) as (row & Hrow & Heq).
  rewrite Heq in Hset. injection Hset as <-.
  destruct Ha as [Hlen Hrows]. unfold cell.
  destruct (Z.eq_dec u' u) as [->|Hu'u].
  - rewrite list_lookup_insert_eq by lia. rewrite Hrow.
    apply list_lookup_insert_ne. intros Heqv.
    apply Hne. f_equal. lia.
  - rewrite list_lookup_insert_ne by lia. reflexivity.
Qed.

(** ** The cells of a frame *)

Section FrameCells.

Variables (step res_x res_y : Z) (focus : complex) (N : Z).
Variable rule : iteration_rule.

(** Cell [(u, v)] of [a] holds the colour of pixel [(u, v)]. *)
Let coloured (a : ndarray) (u v : Z) : Prop :=
  exists c x,
    step_pixel_to_complex_coords u v res_x res_y focus step = Ok c /\
    get_colour c N rule = Ok x /\
    cell a u v = Some x.

Let pixel_body (u v : Z) (a : ndarray) : result ndarray :=
  let* c := step_pixel_to_complex_coords u v res_x res_y focus step in
  let* colour := get_colour c N rule in
  setitem a u v colour.

Lemma pixel_body_cells (u v : Z) (a a' : ndarray) :
  0 <= u < res_x -> 0 <= v < res_y -> shape res_x res_y a ->
  pixel_body u v a = Ok a' ->
  shape res_x res_y a' /\ coloured a' u v /\
  forall u' v', 0 <= u' -> 0 <= v' -> (u', v') <> (u, v) ->
                cell a' u' v' = cell a u' v'.
Proof using Type.
  intros Hu Hv Ha. unfold pixel_body, coloured.
  destruct (step_pixel_to_complex_coords u v res_x res_y focus step)
    as [c|e] eqn:Hc; cbn [bind]; [|discriminate].
  destruct (get_colour c N rule) as [x|e] eqn:Hx; cbn [bind];
    [|discriminate].
  intros Hset. split; [|split].
  - exact (setitem_shape _ _ _ _ _ _ _ Hu Hv Ha Hset).
  - exists c, x. split; [reflexivity|]. split; [exact Hx|].
    exact (setitem_cell_same _ _ _ _ _ _ _ Hu Hv Ha Hset).
  - intros u' v' Hu' Hv' Hne.
    exact (setitem_cell_other _ _ _ _ _ _ _ _ _ Hu Hv Ha Hu' Hv' Hne Hset).
Qed.

Lemma coloured_preserved (a a' : ndarray) (u v : Z) :
  cell a' u v = cell a u v -> coloured a u v -> coloured a' u v.
Proof using Type.
  intros Heq (c & x & Hc & Hx & Hcell). exists c, x.
  repeat split; try assumption. now rewrite Heq.
Qed.

Lemma row_loop_cells (u : Z) (a a' : ndarray) :
  0 <= u < res_x -> 0 <= res_y -> shape res_x res_y a ->
  (forall u' v', 0 <= u' < u -> 0 <= v' < res_y -> coloured a u' v') ->
  for_range res_y (pixel_body u) a = Ok a' ->
  shape res_x res_y a' /\
  forall u' v', 0 <= u' < u + 1 -> 0 <= v' < res_y -> coloured a' u' v'.
Proof using Type.
  intros Hu Hy Ha Hdone Hloop.
  pose proof (for_range_outcome
    (fun v a0 =>
       shape res_x res_y a0 /\
       (forall u' v', 0 <= u' < u -> 0 <= v' < res_y -> coloured a0 u' v') /\
       (forall v', 0 <= v' < v -> coloured a0 u v'))
    (fun _ => True) (pixel_body u) res_y a Hy) as H.
  rewrite Hloop in H.
  destruct H as (Ha' & Hrows & Hrow).
  - repeat split; try apply Ha; [exact Hdone | intros; lia].
  - intros v a0 Hv (Ha0 & Hrows0 & Hrow0).
    destruct (pixel_body u v a0) as [a1|e] eqn:Hbody; [|exact I].
    destruct (pixel_body_cells u v a0 a1 Hu Hv Ha0 Hbody)
      as (Ha1 & Hcol & Hsame).
    repeat split; try apply Ha1.
    + intros u' v' Hu' Hv'.
      apply (coloured_preserved a0); [|now apply Hrows0].
      apply Hsame; try lia. intros [= -> _]. lia.
    + intros v' Hv'. destruct (Z.eq_dec v' v) as [->|Hne]; [exact Hcol|].
      apply (coloured_preserved a0); [|apply Hrow0; lia].
      apply Hsame; try lia. intros [= ->]. lia.
  - split; [exact Ha'|].
    intros u' v' Hu' Hv'.
    destruct (Z.eq_dec u' u) as [->|Hne]; [now apply Hrow|].
    apply Hrows; lia.
Qed.

Lemma frame_loop_cells (grid : ndarray) :
  step_get_image_vals step res_x res_y focus N rule = Ok grid ->
  shape res_x res_y grid /\
  forall u v, 0 <= u < res_x -> 0 <= v < res_y -> coloured grid u v.
Proof using Type.
  unfold step_get_image_vals.
  destruct (np_zeros res_x res_y) as [a0|e] eqn:Hz; cbn [bind];
    [|discriminate].
  destruct (np_zeros_shape _ _ _ Hz) as (Hx & Hy & Ha0 & _).
  intros Hloop.
  pose proof (for_range_outcome
    (fun u a =>
       shape res_x res_y a /\
       forall u' v', 0 <= u' < u -> 0 <= v' < res_y -> coloured a u' v')
    (fun _ => True)
    (fun u a => for_range res_y (pixel_body u) a) res_x a0 Hx) as H.
  change (for_range res_x (fun u a => for_range res_y (pixel_body u) a) a0
          = Ok grid) in Hloop.
  rewrite Hloop in H. apply H.
  - split; [exact Ha0 | intros; lia].
  - intros u a Hu [Ha Hdone].
    destruct (for_range res_y (pixel_body u) a) as [a1|e1] eqn:Hrow;
      [|exact I].
    exact (row_loop_cells u a a1 Hu Hy Ha Hdone Hrow).
Qed.

End FrameCells.

(** X1. Whenever [step_get_image_vals] returns, the matrix has [res_x]
    rows of [res_y] cells and cell [(u, v)] holds exactly the colour that
    [get_colour] gives to the coordinate of pixel [(u, v)]. *)
Theorem frame_cell_is_pixel_colour (step res_x res_y : Z) (focus : complex)
    (N : Z) (rule : iteration_rule) (grid : ndarray) (u v : Z) :
  step_get_image_vals step res_x res_y focus N rule = Ok grid ->
  0 <= u < res_x -> 0 <= v < res_y ->
  Z.of_nat (length grid) = res_x /\
  (exists row, grid !! Z.to_nat u = Some row /\
               Z.of_nat (length row) = res_y) /\
  exists c x,
    step_pixel_to_complex_coords u v res_x res_y focus step = Ok c /\
    get_colour c N rule = Ok x /\
    cell grid u v = Some x.
Proof.
  intros Hgrid Hu Hv.
  destruct (frame_loop_cells _ _ _ _ _ _ _ Hgrid) as [[Hlen Hrows] Hcells].
  split; [exact Hlen|]. split; [|now apply Hcells].
  destruct (lookup_lt_is_Some_2 grid (Z.to_nat u) ltac:(lia)) as [row Hrow].
  exists row. split; [exact Hrow|].
  exact (proj1 (Forall_lookup _ grid) Hrows _ _ Hrow).
Qed.

(** X1 on the 4 by 4 frame of the scenario, at the corner pixel. *)
Lemma frame_cell_is_pixel_colour_witness :
  exists c x,
    step_pixel_to_complex_coords 0 0 4 4 czero 0 = Ok c /\
    get_colour c 1 mandlebrot_f = Ok x /\
    cell [ [Fin 0; Fin 1; Fin 1; Fin 0];
           [Fin 1; Fin 1; Fin 1; Fin 1];
           [Fin 1; Fin 1; Fin 1; Fin 1];
           [Fin 0; Fin 1; Fin 1; Fin 0] ] 0 0 = Some x.
Proof.
  apply (frame_cell_is_pixel_colour 0 4 4 czero 1 mandlebrot_f _ 0 0
           scenario_grid); lia.
Defined.

(** ** The orbit of the default rule *)

Lemma iterate_orbit (x y : R) (n : nat) :
  iterate_rule mandlebrot_f (Complex (Fin x) (Fin y)) n czero
  = Ok (Complex (Fin (fst (orbit x y n))) (Fin (snd (orbit x y n)))).
Proof.
  induction n as [|n IH]; [reflexivity|].
  cbn [iterate_rule orbit]. rewrite IH. cbn [bind].
  destruct (orbit x y n) as [a b]. reflexivity.
Qed.

Lemma normsq_nonneg (p : R * R) : (0 <= normsq p)%R.
Proof. unfold normsq. nra. Qed.

Lemma sqrt_le_2 (s : R) : (0 <= s)%R -> (sqrt s <= 2)%R <-> (s <= 4)%R.
Proof.
  intros Hs. split; intros H.
  - rewrite <- (sqrt_sqrt s Hs). pose proof (sqrt_pos s). nra.
  - replace 2%R with (sqrt (2 * 2)) by (apply sqrt_square; lra).
    apply sqrt_le_1_alt. lra.
Qed.

Lemma get_colour_orbit (x y : R) (N : Z) :
  1 <= N -> (x * x + y * y < 4)%R ->
  let m2 := normsq (orbit x y (Z.to_nat N)) in
  ((m2 <= 4)%R ->
   get_colour (Complex (Fin x) (Fin y)) N mandlebrot_f = Ok (Fin 1)) /\
  ((4 < m2)%R ->
   get_colour (Complex (Fin x) (Fin y)) N mandlebrot_f
   = Ok (Fin (exp (- (1 / 100) * (sqrt m2 - 2))))).
Proof.
  intros HN Hc m2.
  assert (Hin : fge (cabs (Complex (Fin x) (Fin y))) (Fin 2) = false)
    by (rewrite cabs_ge_2_finite; now apply Rleb_false).
  rewrite get_colour_inside by exact Hin.
  rewrite recursion_iterate, iterate_orbit by exact HN. cbn [bind].
  rewrite cabs_finite. fold (normsq (orbit x y (Z.to_nat N))). fold m2.
  cbn [np_isnan fle].
  pose proof (sqrt_le_2 m2 (normsq_nonneg _)) as Hiff.
  split; intros Hm.
  - now rewrite (proj2 (Rleb_true _ _) (proj2 Hiff Hm)).
  - rewrite (proj2 (Rleb_false (sqrt m2) 2)).
    + now rewrite falloff_finite.
    + destruct (Rle_lt_dec (sqrt m2) 2) as [Hle|Hlt]; [|exact Hlt].
      apply Hiff in Hle. lra.
Qed.

(** Beyond radius 2 the default rule moves a point strictly further from
    the origin, for every [c] of the open disc of radius 2. *)
Lemma escape_real (a b x y : R) :
  (x * x + y * y < 4)%R -> (4 < a * a + b * b)%R ->
  (a * a + b * b
   < (a * a + - (b * b) + x) * (a * a + - (b * b) + x)
     + (a * b + b * a + y) * (a * b + b * a + y))%R.
Proof.
  intros Hc Hz.
  set (r := sqrt (a * a + b * b)).
  set (t := sqrt (x * x + y * y)).
  assert (Hr2 : (r * r = a * a + b * b)%R) by (apply sqrt_sqrt; nra).
  assert (Ht2 : (t * t = x * x + y * y)%R) by (apply sqrt_sqrt; nra).
  assert (Hr0 : (0 <= r)%R) by apply sqrt_pos.
  assert (Ht0 : (0 <= t)%R) by apply sqrt_pos.
  assert (Hr : (2 < r)%R) by nra.
  assert (Ht : (t < 2)%R) by nra.
  set (A := (a * a + - (b * b))%R).
  set (B := (a * b + b * a)%R).
  assert (HAB : (A * A + B * B = (r * r) * (r * r))%R)
    by (rewrite Hr2; unfold A, B; ring).
  set (p := (A * x + B * y)%R).
  assert (Hcs : (p * p <= (r * r * t) * (r * r * t))%R).
  { replace ((r * r * t) * (r * r * t))%R
      with ((A * A + B * B) * (x * x + y * y))%R
      by (rewrite HAB, <- Ht2; ring).
    unfold p. pose proof (Rle_0_sqr (A * y - B * x)) as Hsq.
    unfold Rsqr in Hsq. nra. }
  assert (Hp : (- (r * r * t) <= p)%R).
  { destruct (Rle_lt_dec (- (r * r * t)) p) as [H|H]; [exact H|].
    assert (0 <= r * r * t)%R by nra. nra. }
  assert (Hgap : (r < r * r - t)%R) by nra.
  replace ((A + x) * (A + x) + (B + y) * (B + y))%R
    with ((r * r) * (r * r) + 2 * p + t * t)%R
    by (rewrite <- HAB, Ht2; unfold p; ring).
  rewrite <- Hr2.
  assert ((r * r - t) * (r * r - t) <= r * r * (r * r) + 2 * p + t * t)%R
    by nra.
  nra.
Qed.

Lemma orbit_escape_step (x y : R) (n : nat) :
  (x * x + y * y < 4)%R -> (4 < normsq (orbit x y n))%R ->
  (normsq (orbit x y n) < normsq (orbit x y (S n)))%R.
Proof.
  intros Hc Hn. cbn [orbit]. destruct (orbit x y n) as [a b].
  unfold normsq in *. cbn [fst snd] in *. now apply escape_real.
Qed.

Lemma orbit_escape_stays (x y : R) (n k : nat) :
  (x * x + y * y < 4)%R -> (4 < normsq (orbit x y n))%R ->
  (4 < normsq (orbit x y (k + n)))%R.
Proof.
  intros Hc Hn. induction k as [|k IH]; [exact Hn|].
  pose proof (orbit_escape_step x y (k + n) Hc IH). cbn [Nat.add]. lra.
Qed.

Lemma orbit_quarter_disc (x y : R) (n : nat) :
  (x * x + y * y <= 1 / 16)%R -> (normsq (orbit x y n) <= 1 / 4)%R.
Proof.
  intros Hc. induction n as [|n IH].
  - unfold normsq. cbn. lra.
  - cbn [orbit]. destruct (orbit x y n) as [a b].
    unfold normsq in *. cbn [fst snd] in *.
    set (A := (a * a + - (b * b))%R).
    set (B := (a * b + b * a)%R).
    assert (HAB : (A * A + B * B = (a * a + b * b) * (a * a + b * b))%R)
      by (unfold A, B; ring).
    assert (Hsmall : (A * A + B * B <= 1 / 16)%R) by nra.
    pose proof (Rle_0_sqr (A - x)) as H1.
    pose proof (Rle_0_sqr (B - y)) as H2.
    unfold Rsqr in H1, H2. nra.
Qed.

Lemma get_colour_quarter_disc (x y : R) (N : Z) :
  (x * x + y * y <= 1 / 16)%R -> 1 <= N ->
  get_colour (Complex (Fin x) (Fin y)) N mandlebrot_f = Ok (Fin 1).
Proof.
  intros Hc HN.
  apply (get_colour_orbit x y N HN); [lra|].
  pose proof (orbit_quarter_disc x y (Z.to_nat N) Hc). lra.
Qed.

Lemma get_colour_one_bounded (x y : R) (N : Z) :
  get_colour (Complex (Fin x) (Fin y)) N mandlebrot_f = Ok (Fin 1) ->
  1 <= N /\ (x * x + y * y < 4)%R /\
  (normsq (orbit x y (Z.to_nat N)) <= 4)%R.
Proof.
  intros H.
  destruct (Rle_lt_dec 4 (x * x + y * y)) as [Hout|Hin].
  { rewrite get_colour_finite_outside in H by exact Hout.
    injection H as H. lra. }
  assert (Hdisc : fge (cabs (Complex (Fin x) (Fin y))) (Fin 2) = false)
    by (rewrite cabs_ge_2_finite; now apply Rleb_false).
  destruct (Z_lt_le_dec N 1) as [HN|HN].
  { rewrite get_colour_inside, recursion_nonpositive in H by (lia || easy).
    discriminate H. }
  repeat split; try assumption.
  destruct (Rle_lt_dec (normsq (orbit x y (Z.to_nat N))) 4) as [Hle|Hgt];
    [exact Hle|].
  rewrite (proj2 (get_colour_orbit x y N HN Hin) Hgt) in H.
  injection H as H.
  assert (2 < sqrt (normsq (orbit x y (Z.to_nat N))))%R.
  { replace 2%R with (sqrt (2 * 2)) by (apply sqrt_square; lra).
    apply sqrt_lt_1_alt. lra. }
  pose proof (falloff_range _ H0) as Hr.
  change (sqrt (normsq (orbit x y (Z.to_nat N))) + - 2)%R
    with (sqrt (normsq (orbit x y (Z.to_nat N))) - 2)%R in Hr.
  lra.
Qed.

Lemma get_colour_fraction_escaped (x y : R) (N : Z) (i : R) :
  get_colour (Complex (Fin x) (Fin y)) N mandlebrot_f = Ok (Fin i) ->
  (0 < i < 1)%R ->
  1 <= N /\ (x * x + y * y < 4)%R /\
  (4 < normsq (orbit x y (Z.to_nat N)))%R /\
  i = exp (- (1 / 100) * (sqrt (normsq (orbit x y (Z.to_nat N))) - 2)).
Proof.
  intros H Hi.
  destruct (Rle_lt_dec 4 (x * x + y * y)) as [Hout|Hin].
  { rewrite get_colour_finite_outside in H by exact Hout.
    injection H as H. lra. }
  assert (Hdisc : fge (cabs (Complex (Fin x) (Fin y))) (Fin 2) = false)
    by (rewrite cabs_ge_2_finite; now apply Rleb_false).
  destruct (Z_lt_le_dec N 1) as [HN|HN].
  { rewrite get_colour_inside, recursion_nonpositive in H by (lia || easy).
    discriminate H. }
  destruct (Rle_lt_dec (normsq (orbit x y (Z.to_nat N))) 4) as [Hle|Hgt].
  { rewrite (proj1 (get_colour_orbit x y N HN Hin) Hle) in H.
    injection H as H. lra. }
  rewrite (proj2 (get_colour_orbit x y N HN Hin) Hgt) in H.
  injection H as H. repeat split; try assumption. now symmetry.
Qed.

(** X2. For the default rule a pixel that is fully coloured at depth [N]
    is fully coloured at every smaller depth [M >= 1]: once the orbit has
    left the disc of radius 2 it never comes back, so a deeper search can
    only remove pixels from the set. *)
Theorem full_colour_at_smaller_depth (x y : R) (N M : Z) :
  get_colour (Complex (Fin x) (Fin y)) N mandlebrot_f = Ok (Fin 1) ->
  1 <= M <= N ->
  get_colour (Complex (Fin x) (Fin y)) M mandlebrot_f = Ok (Fin 1).
Proof.
  intros HN HM.
  destruct (get_colour_one_bounded x y N HN) as (_ & Hin & Hb).
  apply (get_colour_orbit x y M ltac:(lia) Hin).
  destruct (Rle_lt_dec (normsq (orbit x y (Z.to_nat M))) 4) as [Hle|Hgt];
    [exact Hle|].
  pose proof (orbit_escape_stays x y (Z.to_nat M) (Z.to_nat N - Z.to_nat M)
                Hin Hgt) as Hesc.
  replace (Z.to_nat N - Z.to_nat M + Z.to_nat M)%nat with (Z.to_nat N)
    in Hesc by lia.
  lra.
Qed.

(** X2 at the origin, depths 5 and 2. *)
Lemma full_colour_at_smaller_depth_witness :
  get_colour (Complex (Fin 0) (Fin 0)) 2 mandlebrot_f = Ok (Fin 1).
Proof.
  apply (full_colour_at_smaller_depth 0 0 5 2).
  - apply get_colour_quarter_disc; [lra | lia].
  - lia.
Defined.


Lemma orbit_1_0_3 : (4 < normsq (orbit 1 0 3))%R.
Proof. unfold normsq. cbn. lra. Qed.


(** X4. Every point of the closed disc of radius 1/4 around the origin
    is fully coloured by the default rule at every depth [N >= 1]: its
    orbit never leaves the disc of radius 1/2. *)
Theorem quarter_disc_fully_coloured (x y : R) (N : Z) :
  (x * x + y * y <= 1 / 16)%R -> 1 <= N ->
  get_colour (Complex (Fin x) (Fin y)) N mandlebrot_f = Ok (Fin 1).
Proof. apply get_colour_quarter_disc. Qed.

(** X4 at [c = 0.2 + 0.1j], depth 50. *)
Lemma quarter_disc_fully_coloured_witness :
  get_colour (Complex (Fin (1 / 5)) (Fin (1 / 10))) 50 mandlebrot_f
  = Ok (Fin 1).
Proof.
  apply (quarter_disc_fully_coloured (1 / 5) (1 / 10) 50); [lra | lia].
Defined.

(** ** Mirror symmetry *)

Lemma orbit_conj (x y : R) (n : nat) :
  fst (orbit x (- y) n) = fst (orbit x y n) /\
  snd (orbit x (- y) n) = (- snd (orbit x y n))%R.
Proof.
  induction n as [|n [IH1 IH2]].
  - cbn. split; ring.
  - cbn [orbit].
    destruct (orbit x (- y) n) as [a' b'], (orbit x y n) as [a b].
    cbn [fst snd] in *. subst a' b'. split; ring.
Qed.

Lemma normsq_orbit_conj (x y : R) (n : nat) :
  normsq (orbit x (- y) n) = normsq (orbit x y n).
Proof.
  unfold normsq. destruct (orbit_conj x y n) as [-> ->]. ring.
Qed.

Lemma get_colour_conj (x y : R) (N : Z) :
  get_colour (Complex (Fin x) (Fin (- y))) N mandlebrot_f
  = get_colour (Complex (Fin x) (Fin y)) N mandlebrot_f.
Proof.
  assert (Hsq : (x * x + - y * - y = x * x + y * y)%R) by ring.
  destruct (Rle_lt_dec 4 (x * x + y * y)) as [Hout|Hin].
  { now rewrite !get_colour_finite_outside by lra. }
  assert (Hd : fge (cabs (Complex (Fin x) (Fin y))) (Fin 2) = false)
    by (rewrite cabs_ge_2_finite; now apply Rleb_false).
  assert (Hd' : fge (cabs (Complex (Fin x) (Fin (- y)))) (Fin 2) = false)
    by (rewrite cabs_ge_2_finite; apply Rleb_false; lra).
  destruct (Z_lt_le_dec N 1) as [HN|HN].
  { now rewrite !get_colour_inside, !recursion_nonpositive by (lia || easy). }
  pose proof (get_colour_orbit x y N HN Hin) as [H1 H2].
  pose proof (get_colour_orbit x (- y) N HN ltac:(lra)) as [H1' H2'].
  cbv zeta in *. rewrite normsq_orbit_conj in H1', H2'.
  destruct (Rle_lt_dec (normsq (orbit x y (Z.to_nat N))) 4) as [Hle|Hgt].
  - now rewrite H1, H1'.
  - now rewrite H2, H2'.
Qed.

Lemma step_pixel_to_complex_coords_returns (u v res_x res_y : Z)
    (focus c : complex) (step : Z) :
  step_pixel_to_complex_coords u v res_x res_y focus step = Ok c ->
  Z.min res_x res_y <> 0 /\ step <> -1.
Proof.
  intros H. split; intros Hbad.
  - unfold step_pixel_to_complex_coords in H.
    now rewrite pixel_width_zero_min in H.
  - subst step. unfold step_pixel_to_complex_coords in H.
    destruct (Z.eq_dec (Z.min res_x res_y) 0) as [Hm|Hm].
    + now rewrite pixel_width_zero_min in H.
    + now rewrite pixel_width_step_minus_one in H.
Qed.



(** ** The geometry of the pixel grid *)

Lemma width_value_step (res_x res_y step : Z) :
  0 < Z.min res_x res_y -> 0 <= step ->
  width_value res_x res_y step
  = (width_value res_x res_y 0 / (IZR step + 1))%R.
Proof.
  intros Hm Hs. rewrite !width_value_closed by lia.
  assert (0 < IZR (Z.min res_x res_y))%R by (apply IZR_lt; lia).
  assert (0 <= IZR step)%R by (apply IZR_le; lia).
  field. split; lra.
Qed.





Lemma Rabs_le_bounds (a b : R) : (Rabs a <= b)%R -> (- b <= a <= b)%R.
Proof. unfold Rabs. destruct (Rcase_abs a); lra. Qed.

Lemma cover_axis (L w x : R) (n : Z) :
  (0 < w)%R -> 0 < n -> (L <= x <= L + IZR n * w)%R ->
  exists u, 0 <= u < n /\
            (Rabs (x - (L + (IZR u + 1 / 2) * w)) <= w / 2)%R.
Proof.
  intros Hw Hn Hx.
  set (t := ((x - L) / w)%R).
  assert (Ht : (x - L = t * w)%R) by (unfold t; field; lra).
  assert (Ht0 : (0 <= t)%R).
  { unfold t. apply Rmult_le_pos; [lra|].
    apply Rlt_le, Rinv_0_lt_compat, Hw. }
  assert (Htn : (t <= IZR n)%R) by nra.
  destruct (archimed t) as [Hup1 Hup2].
  set (k := up t - 1).
  assert (Hk : IZR k = (IZR (up t) - 1)%R) by (unfold k; apply minus_IZR).
  assert (Hk0 : 0 <= k).
  { enough (-1 < k) by lia. apply lt_IZR. rewrite Hk. lra. }
  destruct (Z_lt_le_dec k n) as [Hlt|Hge].
  - exists k. split; [lia|].
    apply Rabs_le.
    replace (x - (L + (IZR k + 1 / 2) * w))%R
      with ((t - IZR k - 1 / 2) * w)%R by nra.
    rewrite Hk. split; nra.
  - exists (n - 1). split; [lia|].
    assert (IZR n <= IZR k)%R by now apply IZR_le.
    assert (Heq : t = IZR n) by lra.
    apply Rabs_le. rewrite minus_IZR.
    replace (x - (L + (IZR n - 1 + 1 / 2) * w))%R
      with ((t - IZR n + 1 / 2) * w)%R by nra.
    rewrite Heq. split; nra.
Qed.



(** ** Errors of a frame *)

Lemma for_range_zero {St : Type} (body : Z -> St -> result St) (s : St) :
  for_range 0 body s = Ok s.
Proof. reflexivity. Qed.

Lemma get_colour_default_raises (c : complex) (N : Z) (e : exn) :
  get_colour c N mandlebrot_f = Err e -> e = ValueError /\ N <= 0.
Proof.
  intros H. destruct (Z_lt_le_dec N 1) as [HN|HN].
  - destruct (fge (cabs c) (Fin 2)) eqn:Hc.
    + now rewrite get_colour_outside in H.
    + rewrite get_colour_inside, recursion_nonpositive in H by (lia || easy).
      injection H as <-. split; [reflexivity | lia].
  - destruct (get_colour_returns c N mandlebrot_f mandlebrot_f_total HN)
      as [x Hx].
    rewrite Hx in H. discriminate H.
Qed.

Lemma frame_at_step_minus_one (res_x res_y : Z) (focus : complex) (N : Z)
    (rule : iteration_rule) :
  0 < res_x -> 0 < res_y ->
  step_get_image_vals (-1) res_x res_y focus N rule = Err ZeroDivisionError.
Proof.
  intros Hx Hy. unfold step_get_image_vals.
  destruct (np_zeros_grid res_x res_y) as (a0 & -> & _); try lia.
  cbn [bind].
  apply for_range_first_raises; [lia|].
  apply for_range_first_raises; [lia|].
  unfold step_pixel_to_complex_coords.
  now rewrite pixel_width_step_minus_one by lia.
Qed.



Lemma get_colour_nonpositive_depth (c : complex) (N : Z)
    (rule : iteration_rule) :
  N <= 0 ->
  get_colour c N rule
  = if fge (cabs c) (Fin 2) then Ok (Fin 0) else Err ValueError.
Proof.
  intros HN. destruct (fge (cabs c) (Fin 2)) eqn:Hc.
  - now apply get_colour_outside.
  - now rewrite get_colour_inside, recursion_nonpositive.
Qed.

Section FrameDepth.

Variables (step res_x res_y : Z) (focus : complex) (N : Z).
Variable rule : iteration_rule.

Hypothesis res_x_pos : 0 < res_x.
Hypothesis res_y_pos : 0 < res_y.
Hypothesis step_valid : step <> -1.
Hypothesis depth_invalid : N <= 0.

Let pixel_body (u v : Z) (a : ndarray) : result ndarray :=
  let* c := step_pixel_to_complex_coords u v res_x res_y focus step in
  let* colour := get_colour c N rule in
  setitem a u v colour.

Lemma pixel_body_nonpositive_depth (u v : Z) (a : ndarray) :
  0 <= u < res_x -> 0 <= v < res_y -> shape res_x res_y a ->
  (exists a', pixel_body u v a = Ok a' /\ shape res_x res_y a') \/
  pixel_body u v a = Err ValueError.
Proof using res_x_pos res_y_pos step_valid depth_invalid.
  intros Hu Hv Ha. unfold pixel_body.
  rewrite step_pixel_to_complex_coords_ok by lia. cbn [bind].
  rewrite get_colour_nonpositive_depth by exact depth_invalid.
  match goal with
  | |- context [fge ?m (Fin 2)] => destruct (fge m (Fin 2))
  end; cbn [bind]; [left | now right].
  destruct (setitem_in_range res_x res_y u v a (Fin 0) Hu Hv Ha)
    as (row & Hrow & Hset).
  eexists. split; [exact Hset|].
  exact (setitem_shape res_x res_y u v a _ (Fin 0) Hu Hv Ha Hset).
Qed.

Lemma frame_nonpositive_depth_raises (u0 v0 : Z) (c0 : complex) :
  0 <= u0 < res_x -> 0 <= v0 < res_y ->
  step_pixel_to_complex_coords u0 v0 res_x res_y focus step = Ok c0 ->
  fge (cabs c0) (Fin 2) = false ->
  step_get_image_vals step res_x res_y focus N rule = Err ValueError.
Proof using res_x_pos res_y_pos step_valid depth_invalid.
  intros Hu0 Hv0 Hc0 Hin. unfold step_get_image_vals.
  destruct (np_zeros_grid res_x res_y) as (a0 & Hz & _); try lia.
  rewrite Hz. cbn [bind].
  destruct (np_zeros_shape _ _ _ Hz) as (_ & _ & Ha0 & _).
  apply (for_range_raises (shape res_x res_y) ValueError _ res_x a0 u0);
    try assumption.
  - intros u a Hu Ha.
    pose proof (for_range_outcome (fun _ a1 => shape res_x res_y a1)
                  (fun e => e = ValueError) (pixel_body u) res_y a
                  ltac:(lia) Ha) as H.
    change (for_range res_y (pixel_body u) a) with
      (for_range res_y (fun v a1 =>
         let* c := step_pixel_to_complex_coords u v res_x res_y focus step in
         let* colour := get_colour c N rule in
         setitem a1 u v colour) a) in H.
    match type of H with
    | _ -> match ?loop with _ => _ end =>
        destruct loop as [a1|e]
    end.
    + left. exists a1. split; [reflexivity|]. apply H.
      intros v a2 Hv Ha2.
      destruct (pixel_body_nonpositive_depth u v a2 Hu Hv Ha2)
        as [(a3 & -> & Ha3) | ->]; [exact Ha3 | reflexivity].
    + right. f_equal. apply H.
      intros v a2 Hv Ha2.
      destruct (pixel_body_nonpositive_depth u v a2 Hu Hv Ha2)
        as [(a3 & -> & Ha3) | ->]; [exact Ha3 | reflexivity].
  - intros a Ha.
    apply (for_range_raises (shape res_x res_y) ValueError _ res_y a v0);
      try assumption.
    + intros v a2 Hv Ha2.
      exact (pixel_body_nonpositive_depth u0 v a2 Hu0 Hv Ha2).
    + intros a2 Ha2. rewrite Hc0. cbn [bind].
      rewrite get_colour_nonpositive_depth by exact depth_invalid.
      now rewrite Hin.
Qed.

End FrameDepth.

(** X10. [step_get_image_vals] does not check [N] up front: with
    [N <= 0] it raises [ValueError] as soon as the grid has one pixel
    whose coordinate does not satisfy [abs(c) >= 2], whatever the rule
    is. *)
Theorem frame_rejects_nonpositive_depth_at_inner_pixel
    (step res_x res_y : Z) (focus : complex) (N : Z) (rule : iteration_rule)
    (u v : Z) (c : complex) :
  N <= 0 -> 0 <= u < res_x -> 0 <= v < res_y ->
  step_pixel_to_complex_coords u v res_x res_y focus step = Ok c ->
  fge (cabs c) (Fin 2) = false ->
  step_get_image_vals step res_x res_y focus N rule = Err ValueError.
Proof.
  intros HN Hu Hv Hc Hin.
  destruct (step_pixel_to_complex_coords_returns _ _ _ _ _ _ _ Hc)
    as [_ Hs].
  apply (frame_nonpositive_depth_raises step res_x res_y focus N rule
           ltac:(lia) ltac:(lia) Hs HN u v c Hu Hv Hc Hin).
Qed.

(** X10 on the 4 by 4 scenario with [N = 0], at the inner pixel (1, 1). *)
Lemma frame_rejects_nonpositive_depth_at_inner_pixel_witness :
  step_get_image_vals 0 4 4 czero 0 mandlebrot_f = Err ValueError.
Proof.
  apply (frame_rejects_nonpositive_depth_at_inner_pixel 0 4 4 czero 0
           mandlebrot_f 1 1 (Complex (Fin (IZR 1 - 3 / 2))
                                     (Fin (3 / 2 - IZR 1)))).
  - lia.
  - lia.
  - lia.
  - apply scenario_pixel.
  - rewrite cabs_ge_2_finite. apply Rleb_false. lra.
Defined.



(** X12. Degenerate resolutions at [step_get_image_vals]: a negative
    dimension raises [ValueError]; a dimension 0 gives an empty matrix
    without evaluating any pixel, whatever the step, the depth and the
    rule are. *)
Theorem frame_of_degenerate_resolution (step res_x res_y : Z)
    (focus : complex) (N : Z) (rule : iteration_rule) :
  (res_x < 0 \/ res_y < 0 ->
   step_get_image_vals step res_x res_y focus N rule = Err ValueError) /\
  (res_x = 0 -> 0 <= res_y ->
   step_get_image_vals step res_x res_y focus N rule = Ok []) /\
  (0 <= res_x -> res_y = 0 ->
   step_get_image_vals step res_x res_y focus N rule
   = Ok (replicate (Z.to_nat res_x) [])).
Proof.
  repeat apply conj.
  - intros Hneg. unfold step_get_image_vals.
    now rewrite np_zeros_negative.
  - intros -> Hy. unfold step_get_image_vals, np_zeros.
    rewrite (proj2 (Z.ltb_ge res_y 0) Hy). reflexivity.
  - intros Hx ->. unfold step_get_image_vals, np_zeros.
    rewrite (proj2 (Z.ltb_ge res_x 0) Hx). cbn [orb Z.ltb Z.compare bind].
    change (Z.to_nat 0) with 0%nat. cbn [replicate].
    destruct (for_range_invariant
                (fun a => a = replicate (Z.to_nat res_x) [])
                (fun u a => for_range 0 (fun v a1 =>
                   let* c := step_pixel_to_complex_coords u v res_x 0 focus
                               step in
                   let* colour := get_colour c N rule in
                   setitem a1 u v colour) a)
                res_x (replicate (Z.to_nat res_x) []))
      as (a & Ha & ->); [|reflexivity|exact Ha].
    intros u a Hu ->. eexists. split; reflexivity.
Qed.

(** X12 for a grid of 3 empty rows at step -1 with [N = 0]. *)
Lemma frame_of_degenerate_resolution_witness :
  step_get_image_vals (-1) 3 0 czero 0 mandlebrot_f
  = Ok (replicate (Z.to_nat 3) []).
Proof.
  apply (frame_of_degenerate_resolution (-1) 3 0 czero 0 mandlebrot_f);
    [lia | reflexivity].
Defined.

(** ** The sequencer, step by step *)

Lemma fdiv_nonzero_returns (x : pyfloat) (b : R) :
  b <> 0%R -> exists r, fdiv x (Fin b) = Ok r.
Proof.
  intros Hb. cbn. rewrite (proj2 (Reqb_false b 0) Hb). now eexists.
Qed.

Lemma cdiv_int_returns (a : complex) (n : Z) :
  n <> 0 -> exists q, cdiv_int a n = Ok q.
Proof.
  intros Hn. unfold cdiv_int, of_int.
  assert (Hr : IZR n <> 0%R) by now apply not_0_IZR.
  rewrite fdiv_fin by exact Hr. cbn [bind fmul fadd].
  assert (Hd : (IZR n + 0 * (0 / IZR n))%R <> 0%R)
    by (replace (IZR n + 0 * (0 / IZR n))%R with (IZR n) by ring; exact Hr).
  destruct (fdiv_nonzero_returns
              (fadd (real a) (fmul (imag a) (Fin (0 / IZR n)))) _ Hd)
    as [re ->].
  destruct (fdiv_nonzero_returns
              (fsub (imag a) (fmul (real a) (Fin (0 / IZR n)))) _ Hd)
    as [im ->].
  cbn [bind]. now eexists.
Qed.

Lemma cdiv_int_finite (p q : R) (n : Z) :
  n <> 0 ->
  cdiv_int (Complex (Fin p) (Fin q)) n
  = Ok (Complex (Fin (p / IZR n)) (Fin (q / IZR n))).
Proof.
  intros Hn. unfold cdiv_int, of_int.
  assert (Hr : IZR n <> 0%R) by now apply not_0_IZR.
  rewrite fdiv_fin by exact Hr. cbn [bind fmul fadd fsub fneg real imag].
  assert (Hd : (IZR n + 0 * (0 / IZR n))%R <> 0%R)
    by (replace (IZR n + 0 * (0 / IZR n))%R with (IZR n) by ring; exact Hr).
  rewrite !fdiv_fin by exact Hd. cbn [bind].
  do 2 f_equal; f_equal; now field.
Qed.







(** ** Depth *)

Lemma iterate_rule_add (rule : iteration_rule) (c : complex) (n m : nat)
    (z : complex) :
  iterate_rule rule c (m + n) z
  = (let* z' := iterate_rule rule c n z in iterate_rule rule c m z').
Proof.
  induction m as [|m IH]; cbn [Nat.add iterate_rule].
  - now destruct (iterate_rule rule c n z).
  - rewrite IH. now destruct (iterate_rule rule c n z).
Qed.

(** X16. A search of depth [N + M] resumes the search of depth [N]: it
    is the result of [recursion] at depth [N] followed by [M] further
    applications of the rule, and it raises whatever the shallower search
    raises. *)
Theorem recursion_resumes (c : complex) (N M : Z) (rule : iteration_rule) :
  1 <= N -> 0 <= M ->
  recursion c (N + M) rule
  = (let* z := recursion c N rule in iterate_rule rule c (Z.to_nat M) z) /\
  recursion c (N + 1) rule
  = (let* z := recursion c N rule in rule c z).
Proof.
  intros HN HM.
  assert (Hgen : forall K, 0 <= K ->
            recursion c (N + K) rule
            = (let* z := recursion c N rule in
               iterate_rule rule c (Z.to_nat K) z)).
  { intros K HK. rewrite !recursion_iterate by lia.
    replace (Z.to_nat (N + K)) with (Z.to_nat K + Z.to_nat N)%nat by lia.
    apply iterate_rule_add. }
  split; [now apply Hgen|].
  rewrite Hgen by lia. change (Z.to_nat 1) with 1%nat.
  destruct (recursion c N rule) as [z|e]; [|reflexivity].
  cbn. reflexivity.
Qed.

(** X16 at depths 3 and 2 of the default rule. *)
Lemma recursion_resumes_witness :
  recursion czero (3 + 2) mandlebrot_f
  = (let* z := recursion czero 3 mandlebrot_f in
     iterate_rule mandlebrot_f czero (Z.to_nat 2) z).
Proof.
  apply (recursion_resumes czero 3 2 mandlebrot_f); lia.
Defined.

(** ** The saved file *)

Lemma string_length_append (a b : string) :
  String.length (a +:+ b) = (String.length a + String.length b)%nat.
Proof.
  induction a as [|c a IH]; [reflexivity|].
  change (S (String.length (a +:+ b))
          = S (String.length a + String.length b)).
  now rewrite IH.
Qed.

Lemma string_append_nil_r (a : string) : a +:+ "" = a.
Proof.
  induction a as [|c a IH]; [reflexivity|].
  change (String c (a +:+ "") = String c a). now rewrite IH.
Qed.

Lemma string_append_assoc (a b c : string) :
  (a +:+ b) +:+ c = a +:+ (b +:+ c).
Proof.
  induction a as [|x a IH]; [reflexivity|].
  change (String x ((a +:+ b) +:+ c) = String x (a +:+ (b +:+ c))).
  now rewrite IH.
Qed.

Lemma py_lower_append (a b : string) :
  py_lower (a +:+ b) = py_lower a +:+ py_lower b.
Proof.
  induction a as [|c a IH]; [reflexivity|].
  change (String (lower_char c) (py_lower (a +:+ b))
          = String (lower_char c) (py_lower a +:+ py_lower b)).
  now rewrite IH.
Qed.

Lemma py_lower_length (s : string) :
  String.length (py_lower s) = String.length s.
Proof.
  induction s as [|c s IH]; [reflexivity|].
  change (S (String.length (py_lower s)) = S (String.length s)).
  now rewrite IH.
Qed.

Lemma substring_whole (s : string) :
  String.substring 0 (String.length s) s = s.
Proof.
  induction s as [|c s IH]; [reflexivity|].
  change (String c (String.substring 0 (String.length s) s) = String c s).
  now rewrite IH.
Qed.

Lemma substring_skip (p s : string) (i k : nat) :
  String.substring (String.length p + i) k (p +:+ s)
  = String.substring i k s.
Proof. induction p as [|c p IH]; [reflexivity | exact IH]. Qed.

Lemma endswith_append_l (p s suffix : string) :
  (String.length suffix <= String.length s)%nat ->
  endswith (p +:+ s) suffix = endswith s suffix.
Proof.
  intros Hlen. unfold endswith. rewrite string_length_append.
  replace (String.length p + String.length s - String.length suffix)%nat
    with (String.length p + (String.length s - String.length suffix))%nat
    by lia.
  rewrite substring_skip.
  rewrite (proj2 (Nat.leb_le _ _) Hlen).
  now rewrite (proj2 (Nat.leb_le _ _)) by lia.
Qed.

Lemma endswith_suffix (p suffix : string) :
  endswith (p +:+ suffix) suffix = true.
Proof.
  rewrite endswith_append_l by lia. unfold endswith.
  rewrite Nat.leb_refl, Nat.sub_diag, substring_whole.
  now rewrite String.eqb_refl.
Qed.

Lemma prefix_append (p s : string) : String.prefix p (p +:+ s) = true.
Proof.
  induction p as [|c p IH].
  - now destruct s.
  - change (String.prefix (String c p) (String c p +:+ s))
      with (if Ascii.ascii_dec c c then String.prefix p (p +:+ s)
            else false).
    destruct (Ascii.ascii_dec c c) as [_|Hne]; [exact IH | now elim Hne].
Qed.

(** With the folder in front, a name shorter than the extension never
    passes the test of the extension. *)
Lemma endswith_renders (name : string) :
  name <> "" ->
  endswith (py_lower ("renders/" +:+ name)) ".mp4"
  = endswith (py_lower name) ".mp4".
Proof.
  intros Hne. rewrite py_lower_append.
  destruct name as [|c1 [|c2 [|c3 [|c4 rest]]]]; try reflexivity.
  apply endswith_append_l.
  change (4 <= S (S (S (S (String.length (py_lower rest))))))%nat. lia.
Qed.

Lemma mp4_path_named (res_x res_y num_frames : Z) (name : string) :
  name <> "" ->
  mp4_path res_x res_y num_frames (Some name)
  = "renders/" +:+ name
    +:+ (if endswith (py_lower name) ".mp4" then "" else ".mp4").
Proof.
  intros Hne. unfold mp4_path.
  destruct name as [|c name]; [now elim Hne|].
  rewrite endswith_renders by exact Hne.
  destruct (endswith (py_lower (String c name)) ".mp4"); cbn [negb].
  - now rewrite string_append_nil_r.
  - apply string_append_assoc.
Qed.

(** X17. Whatever name the caller gives, [render_zoom_in] saves under
    [renders/] to a file whose name ends in [.mp4], in any letter case: a
    name that already carries the extension is kept as it is, any other
    name gets [.mp4] appended, and without a name the file name is built
    from the resolution and the number of frames. *)
Theorem saved_file_is_mp4_under_renders (res_x res_y num_frames : Z)
    (user_mp4_path : option string) :
  let path := mp4_path res_x res_y num_frames user_mp4_path in
  String.prefix "renders/" path = true /\
  endswith (py_lower path) ".mp4" = true /\
  forall name, user_mp4_path = Some name -> name <> "" ->
    path = "renders/" +:+ name
           +:+ (if endswith (py_lower name) ".mp4" then "" else ".mp4").
Proof.
  assert (Hdefault :
    forall a b c : string,
      String.prefix "renders/"
        ("renders/Mandlebrot_" +:+ a +:+ "_by_" +:+ b +:+ "_with_" +:+ c
         +:+ "_steps.mp4") = true /\
      endswith
        (py_lower ("renders/Mandlebrot_" +:+ a +:+ "_by_" +:+ b +:+ "_with_"
                   +:+ c +:+ "_steps.mp4")) ".mp4" = true).
  { intros a b c. split; [reflexivity|].
    change "_steps.mp4" with ("_steps" +:+ ".mp4").
    rewrite <- !string_append_assoc, py_lower_append.
    apply endswith_suffix. }
  assert (Hnamed : forall name, name <> "" ->
    String.prefix "renders/" (mp4_path res_x res_y num_frames (Some name))
    = true /\
    endswith (py_lower (mp4_path res_x res_y num_frames (Some name))) ".mp4"
    = true).
  { intros name Hne. rewrite mp4_path_named by exact Hne. split.
    - apply prefix_append.
    - destruct (endswith (py_lower name) ".mp4") eqn:Hext.
      + rewrite string_append_nil_r, py_lower_append.
        rewrite endswith_append_l; [exact Hext|].
        unfold endswith in Hext. apply andb_true_iff in Hext.
        now apply Nat.leb_le.
      + rewrite <- string_append_assoc, py_lower_append.
        apply endswith_suffix. }
  intros path. unfold path.
  destruct user_mp4_path as [name|].
  - destruct name as [|ch name].
    + split; [|split]; [apply Hdefault | apply Hdefault |].
      intros name [= <-] Hne. now elim Hne.
    + assert (Hne : String ch name <> "") by discriminate.
      split; [|split]; [now apply Hnamed | now apply Hnamed |].
      intros name' [= <-] _. now apply mp4_path_named.
  - split; [|split]; [apply Hdefault | apply Hdefault |].
    intros name [=].
Qed.

(** X17 for the name [Zoom.MP4]. *)
Lemma saved_file_is_mp4_under_renders_witness :
  mp4_path 400 400 20 (Some "Zoom.MP4") = "renders/Zoom.MP4".
Proof.
  destruct (saved_file_is_mp4_under_renders 400 400 20 (Some "Zoom.MP4"))
    as (_ & _ & H).
  exact (H "Zoom.MP4" eq_refl ltac:(discriminate)).
Defined.

(** X18. [render_zoom_in] always saves, whatever [save_as_mp4] is: for a
    frame interval other than 0 it asks for the frame rate
    [1000 / interval_between_frames], and for the interval 0 it divides
    by zero. *)
Theorem save_ignores_flag (res_x res_y num_frames interval : Z)
    (save_as_mp4 : bool) (user_mp4_path : option string) :
  (interval <> 0 ->
   save_request res_x res_y num_frames interval save_as_mp4 user_mp4_path
   = Ok (Some (mp4_path res_x res_y num_frames user_mp4_path,
               Fin (1000 / IZR interval)))) /\
  (interval = 0 ->
   save_request res_x res_y num_frames interval save_as_mp4 user_mp4_path
   = Err ZeroDivisionError).
Proof.
  unfold save_request, frames_per_second, of_int. cbn [fmul]. split.
  - intros Hi. assert (Hr : IZR interval <> 0%R) by now apply not_0_IZR.
    rewrite fdiv_fin by lra. cbn [bind]. do 4 f_equal. now field.
  - intros ->. replace (0 * (1 / 1000))%R with 0%R by ring.
    now rewrite fdiv_by_zero.
Qed.

(** X18 for the default interval of 200 ms with the flag off. *)
Lemma save_ignores_flag_witness :
  save_request 400 400 20 200 false None
  = Ok (Some (mp4_path 400 400 20 None, Fin (1000 / IZR 200))).
Proof.
  apply (save_ignores_flag 400 400 20 200 false None). lia.
Defined.

(** ** Coordinates that are not finite *)

Lemma cabs_infinite (c : complex) :
  is_inf (real c) || is_inf (imag c) = true ->
  fge (cabs c) (Fin 2) = true.
Proof. intros H. unfold cabs. now rewrite H. Qed.

Lemma cabs_nan (z : complex) :
  is_inf (real z) || is_inf (imag z) = false ->
  real z = NaN \/ imag z = NaN ->
  cabs z = NaN.
Proof.
  intros Hinf Hnan. unfold cabs. rewrite Hinf.
  destruct Hnan as [-> | ->]; [reflexivity|].
  now destruct (real z).
Qed.

Lemma mandlebrot_f_nan (c z : complex) :
  is_inf (real c) || is_inf (imag c) = false ->
  real z = NaN \/ imag z = NaN ->
  mandlebrot_f c z = Ok (Complex NaN NaN).
Proof.
  intros Hc Hz. unfold mandlebrot_f, cadd, cmul.
  destruct z as [a b]. cbn [real imag] in *.
  destruct Hz as [-> | ->].
  - cbn. now destruct b.
  - assert (Hre : fsub (fmul a a) (fmul NaN NaN) = NaN)
      by (cbn; now destruct (fmul a a)).
    assert (Him : fadd (fmul a NaN) (fmul NaN a) = NaN)
      by now destruct a.
    rewrite Hre, Him. reflexivity.
Qed.

Lemma iterate_nan (c : complex) (n : nat) :
  is_inf (real c) || is_inf (imag c) = false ->
  real c = NaN \/ imag c = NaN ->
  exists z,
    iterate_rule mandlebrot_f c (S n) czero = Ok z /\
    is_inf (real z) || is_inf (imag z) = false /\
    (real z = NaN \/ imag z = NaN).
Proof.
  intros Hinf Hnan. induction n as [|n (z & Hz & Hzinf & Hznan)].
  - eexists. split; [reflexivity|].
    destruct c as [a b]. cbn [real imag] in *.
    unfold czero, cmul, cadd. cbn.
    destruct a, b; cbn in *; try discriminate Hinf;
      destruct Hnan as [Hn|Hn]; try discriminate Hn; auto.
  - exists (Complex NaN NaN).
    change (iterate_rule mandlebrot_f c (S (S n)) czero)
      with (let* z' := iterate_rule mandlebrot_f c (S n) czero in
            mandlebrot_f c z').
    rewrite Hz. cbn [bind].
    rewrite (mandlebrot_f_nan c z Hinf Hznan). auto.
Qed.

(** X19. A coordinate with an infinite or [nan] part is coloured 0 by
    the default rule at every depth [N >= 1]: an infinite part takes the
    early exit, and a [nan] part makes every iterate [nan], which
    [get_colour] maps to 0 instead of raising. *)
Theorem non_finite_coordinate_is_zero (c : complex) (N : Z) :
  1 <= N ->
  (forall r, real c <> Fin r) \/ (forall r, imag c <> Fin r) ->
  get_colour c N mandlebrot_f = Ok (Fin 0).
Proof.
  intros HN Hnf.
  destruct (is_inf (real c) || is_inf (imag c)) eqn:Hinf.
  { apply get_colour_outside. now apply cabs_infinite. }
  assert (Hnan : real c = NaN \/ imag c = NaN).
  { apply orb_false_iff in Hinf. destruct Hinf as [Hi1 Hi2].
    destruct Hnf as [Hr|Hi].
    - left. destruct (real c) as [r| | |]; try discriminate Hi1;
        [now elim (Hr r) | reflexivity].
    - right. destruct (imag c) as [r| | |]; try discriminate Hi2;
        [now elim (Hi r) | reflexivity]. }
  rewrite get_colour_inside.
  - rewrite recursion_iterate by exact HN.
    replace (Z.to_nat N) with (S (Z.to_nat (N - 1))) by lia.
    destruct (iterate_nan c (Z.to_nat (N - 1)) Hinf Hnan)
      as (z & -> & Hzinf & Hznan).
    cbn [bind]. now rewrite (cabs_nan z Hzinf Hznan).
  - now rewrite (cabs_nan c Hinf Hnan).
Qed.

(** X19 for the coordinate [nan + 0.5j] at depth 20. *)
Lemma non_finite_coordinate_is_zero_witness :
  get_colour (Complex NaN (Fin (1 / 2))) 20 mandlebrot_f = Ok (Fin 0).
Proof.
  apply (non_finite_coordinate_is_zero (Complex NaN (Fin (1 / 2))) 20).
  - lia.
  - left. intros r. discriminate.
Defined.

(** ** Distinct pixels *)



(** ** Outside the disc *)

Lemma escape_outside_real (a b x y : R) :
  (4 < x * x + y * y)%R -> (x * x + y * y <= a * a + b * b)%R ->
  (a * a + b * b
   < (a * a + - (b * b) + x) * (a * a + - (b * b) + x)
     + (a * b + b * a + y) * (a * b + b * a + y))%R.
Proof.
  intros Hc Hz.
  set (r := sqrt (a * a + b * b)).
  set (t := sqrt (x * x + y * y)).
  assert (Hr2 : (r * r = a * a + b * b)%R) by (apply sqrt_sqrt; nra).
  assert (Ht2 : (t * t = x * x + y * y)%R) by (apply sqrt_sqrt; nra).
  assert (Hr0 : (0 <= r)%R) by apply sqrt_pos.
  assert (Ht0 : (0 <= t)%R) by apply sqrt_pos.
  assert (Ht : (2 < t)%R) by nra.
  assert (Hrt : (t <= r)%R) by nra.
  set (A := (a * a + - (b * b))%R).
  set (B := (a * b + b * a)%R).
  assert (HAB : (A * A + B * B = (r * r) * (r * r))%R)
    by (rewrite Hr2; unfold A, B; ring).
  set (p := (A * x + B * y)%R).
  assert (Hcs : (p * p <= (r * r * t) * (r * r * t))%R).
  { replace ((r * r * t) * (r * r * t))%R
      with ((A * A + B * B) * (x * x + y * y))%R
      by (rewrite HAB, <- Ht2; ring).
    unfold p. pose proof (Rle_0_sqr (A * y - B * x)) as Hsq.
    unfold Rsqr in Hsq. nra. }
  assert (Hp : (- (r * r * t) <= p)%R).
  { destruct (Rle_lt_dec (- (r * r * t)) p) as [H|H]; [exact H|].
    assert (0 <= r * r * t)%R by nra. nra. }
  assert (Hgap : (r < r * r - t)%R) by nra.
  replace ((A + x) * (A + x) + (B + y) * (B + y))%R
    with ((r * r) * (r * r) + 2 * p + t * t)%R
    by (rewrite <- HAB, Ht2; unfold p; ring).
  rewrite <- Hr2.
  assert ((r * r - t) * (r * r - t) <= r * r * (r * r) + 2 * p + t * t)%R
    by nra.
  nra.
Qed.

Lemma orbit_outside_grows (x y : R) (n : nat) :
  (4 < x * x + y * y)%R ->
  (x * x + y * y <= normsq (orbit x y (S n)))%R.
Proof.
  intros Hc. induction n as [|n IH].
  - unfold normsq. cbn. right. ring.
  - pose proof IH as Hlt.
    change (orbit x y (S (S n)))
      with (let (a, b) := orbit x y (S n) in
            (a * a + - (b * b) + x, a * b + b * a + y)%R).
    destruct (orbit x y (S n)) as [a b].
    unfold normsq in *. cbn [fst snd] in *.
    pose proof (escape_outside_real a b x y Hc Hlt). lra.
Qed.


